(** * Country population guessing game: a shallow embedding of [main.py]

    The game fetches country records, quizzes the player on which of two
    countries has the larger population, and stores the final score in a
    small leaderboard table.  Each Python function the properties below talk
    about is transcribed here under its own name. *)

From Stdlib Require Import ZArith Lia Bool Ascii DecimalString PrimFloat.
From stdpp Require Import base list strings gmap sorting.

Local Open Scope Z_scope.

(** ** Data model *)

(** [@dataclass class Country]: equality is the generated [__eq__], that is
    equality of the pair (name, population).  Python [int] is unbounded. *)
Record Country := mkCountry { name : string; population : Z }.

#[global] Instance Country_eq_dec : EqDecision Country.
Proof. solve_decision. Defined.

(** ** Guess evaluator *)

(** [check_user_guess]: Python parses [a and b or c and d] as
    [(a and b) or (c and d)]. *)
Definition check_user_guess (country1 country2 : Country) (user_guess : string) : bool :=
  if ((user_guess =? "1")%string && (population country1 >=? population country2))
     || (negb (user_guess =? "1")%string && (population country2 >=? population country1))
  then true
  else false.

(** ** Effects

    A computation runs on a state [St] and either returns a value, raises a
    Python exception, or exhausts the fuel that bounds a recursion or a loop
    of the model.  The state reached is kept in all three cases. *)

Inductive exn : Set :=
  | IndexError
  | EOFError
  | ConnectionError
  | FileNotFoundError
  | JSONDecodeError.

Inductive outcome (A : Type) : Type :=
  | Ok (a : A)
  | Raise (e : exn)
  | OutOfFuel.
Arguments Ok {A} a.
Arguments Raise {A} e.
Arguments OutOfFuel {A}.

Definition M (St A : Type) : Type := St → outcome A * St.

#[global] Instance M_ret {St} : MRet (M St) := λ A a s, (Ok a, s).

#[global] Instance M_bind {St} : MBind (M St) := λ A B f m s,
  match m s with
  | (Ok a, s') => f a s'
  | (Raise e, s') => (Raise e, s')
  | (OutOfFuel, s') => (OutOfFuel, s')
  end.

Definition raise {St A} (e : exn) : M St A := λ s, (Raise e, s).
Definition out_of_fuel {St A} : M St A := λ s, (OutOfFuel, s).

(** ** The console and the random generator

    [input] reads the next line of standard input and raises [EOFError] when
    none is left; the generator of the [random] module is a tape of draws
    read at a cursor, so that every sequence of outcomes is some tape. *)

Inductive event : Type :=
  | EInput (prompt : string)
  | EPrint (text : string).

#[global] Instance event_eq_dec : EqDecision event.
Proof. solve_decision. Defined.

Record world := mkWorld {
  stdin : list string;
  tape : nat → nat;
  cursor : nat;
  stdout : list event
}.

Definition advance (s : world) : world :=
  mkWorld (stdin s) (tape s) (S (cursor s)) (stdout s).

Definition emit (evs : list event) (s : world) : world :=
  mkWorld (stdin s) (tape s) (cursor s) (stdout s ++ evs).

(** [Random._randbelow n]: a draw in [0, n). *)
Definition randbelow (n : nat) : M world nat :=
  λ s, (Ok (tape s (cursor s) `mod` n)%nat, advance s).

(** [random.choice seq]: [IndexError] on an empty sequence, otherwise
    [seq[randbelow(len(seq))]]. *)
Definition choice {A} (seq : list A) : M world A :=
  match seq with
  | [] => raise IndexError
  | _ :: _ =>
      i ← randbelow (length seq);
      match seq !! i with
      | Some x => mret x
      | None => raise IndexError
      end
  end.

(** [random.randint a b]: [a + randbelow(b - a + 1)]. *)
Definition randint (a b : Z) : M world Z :=
  i ← randbelow (Z.to_nat (b - a + 1));
  mret (a + Z.of_nat i).

(** ** Round selector *)

(** [set_countries]: [fuel] bounds the depth of the recursive re-roll.  The
    interpreter bounds it too: a re-roll that reaches Python's recursion limit
    ends in [RecursionError], with no pair returned; that end is the
    [OutOfFuel] of the model. *)
Fixpoint set_countries (fuel : nat) (country_1 country_2 : option Country)
    (names_and_populations : list Country) : M world (Country * Country) :=
  match fuel with
  | O => out_of_fuel
  | S fuel =>
      country_1 ← match country_1 with
                   | None => choice names_and_populations
                   | Some c => mret c
                   end;
      country_2 ← match country_2 with
                   | None => choice names_and_populations
                   | Some c => mret c
                   end;
      coin ← randint 0 1;
      '(country_1, country_2) ←
        (if (coin =? 0)%Z
         then c ← choice names_and_populations; mret (c, country_2)
         else c ← choice names_and_populations; mret (country_1, c));
      if decide (country_1 = country_2)
      then set_countries fuel (Some country_1) (Some country_2) names_and_populations
      else mret (country_1, country_2)
  end.

(** ** Game loop *)

(** [print(text)]. *)
Definition print (text : string) : M world unit :=
  λ s, (Ok (), emit [EPrint text] s).

(** [input(prompt)]: shows the prompt and reads one line; [EOFError] at the
    end of standard input. *)
Definition input (prompt : string) : M world string :=
  λ s, match stdin s with
       | [] => (Raise EOFError, emit [EInput prompt] s)
       | line :: rest =>
           (Ok line, mkWorld rest (tape s) (cursor s) (stdout s ++ [EInput prompt]))
       end.

(** [str.lower] on the ASCII letters.  The loop below only asks whether the
    result is "y" or "n", and no other character lowers to one of these. *)
Definition lower_ascii (c : ascii) : ascii :=
  let n := nat_of_ascii c in
  if ((65 <=? n) && (n <=? 90))%nat then ascii_of_nat (n + 32) else c.

Fixpoint lower (text : string) : string :=
  match text with
  | EmptyString => EmptyString
  | String c rest => String (lower_ascii c) (lower rest)
  end.

(** [str(n)] and [f"{n}"] of an [int]. *)
Definition repr (n : Z) : string := NilZero.string_of_int (Z.to_int n).

Definition newline : string := String (ascii_of_nat 10) EmptyString.

(** [x = ""; while x not in accepted: x = body()], entered with the current
    value [x].  Every pass of the loops of this program reads a line or raises
    [EOFError], so one more pass than there are lines left is all the fuel
    the loop can use. *)
Fixpoint while_not_in_fuel (fuel : nat) (accepted : list string)
    (body : M world string) (x : string) : M world string :=
  if bool_decide (x ∈ accepted) then mret x
  else match fuel with
       | O => out_of_fuel
       | S fuel => x ← body; while_not_in_fuel fuel accepted body x
       end.

Definition while_not_in (accepted : list string) (body : M world string)
    (x : string) : M world string :=
  λ s, while_not_in_fuel (S (length (stdin s))) accepted body x s.

Section Locale.

(** The [n] presentation type of [format] prints an integer with the
    separators of the process locale, set from the environment by
    [locale.setlocale(locale.LC_ALL, '')]. *)
Variable format_n : Z → string.

(** [Country.__str__]. *)
Definition Country_str (c : Country) : string :=
  name c +:+ " has a population of " +:+ format_n (population c).

Definition guess_prompt (country1 country2 : Country) : string :=
  "Which country has the largest population?" +:+ newline +:+
  "1. " +:+ name country1 +:+ newline +:+
  "2. " +:+ name country2 +:+ newline.

(** The [while True] loop of [game_loop], entered with the current values of
    [country1], [country2] and [score].  [fuel] bounds the number of rounds
    and [depth] the recursion of [set_countries]. *)
Fixpoint game_loop_while (fuel depth : nat) (country1 country2 : option Country)
    (score : Z) (names_and_populations : list Country) : M world Z :=
  match fuel with
  | O => out_of_fuel
  | S fuel =>
      '(country1, country2) ←
        set_countries depth country1 country2 names_and_populations;
      user_guess ←
        while_not_in ["1"; "2"] (input (guess_prompt country1 country2)) "";
      print (Country_str country1);;
      print (Country_str country2);;
      if check_user_guess country1 country2 user_guess
      then
        let score := score + 1 in
        print "Correct!";;
        play_again ←
          while_not_in ["y"; "n"]
            (line ← input "Would you like to continue? (y/n) "; mret (lower line)) "";
        if (play_again =? "n")%string
        then mret score
        else
          print ("Your current score is " +:+ repr score +:+ ".");;
          game_loop_while fuel depth (Some country1) (Some country2) score
            names_and_populations
      else
        print "Incorrect!";;
        mret score
  end.

(** The loop followed by the two statements after it. *)
Definition game_loop_from (fuel depth : nat) (country1 country2 : option Country)
    (score : Z) (names_and_populations : list Country) : M world Z :=
  score ← game_loop_while fuel depth country1 country2 score names_and_populations;
  print ("Your score was " +:+ repr score +:+ ".");;
  mret score.

(** [game_loop]: a round reads at least one line, so there are no more
    rounds than lines of input. *)
Definition game_loop (depth : nat) (names_and_populations : list Country) : M world Z :=
  λ s, game_loop_from (S (length (stdin s))) depth None None 0
         names_and_populations s.

End Locale.

(** ** Data source adapter

    The adapter runs on the files it can see, the modification time of the
    running script, a clock that stamps the files it writes, and the server.
    Modification times are the floats of [os.path.getmtime]. *)

Record file := mkFile { content : string; mtime : float }.

Record response := mkResponse { status_code : Z; text : string }.

Inductive io_event : Type :=
  | HttpGet (endpoint : string)
  | FileWrite (path : string) (body : string)
  | FileRead (path : string).

Record system := mkSystem {
  files : gmap string file;
  program_mtime : float;
  clock : float;
  network : string → option response;
  log : list io_event
}.

Definition record (e : io_event) (w : system) : system :=
  mkSystem (files w) (program_mtime w) (clock w) (network w) (log w ++ [e]).

Definition JSON_FILE : string := "country_information.json".

(** [requests.get(endpoint)]: a response, or the exception of a failed
    connection. *)
Definition requests_get (endpoint : string) : M system response :=
  λ w, match network w endpoint with
       | Some r => (Ok r, record (HttpGet endpoint) w)
       | None => (Raise ConnectionError, record (HttpGet endpoint) w)
       end.

(** [with open(path, "w") as file: file.write(body)]: the file is created or
    truncated, and stamped with the time of the write. *)
Definition write_file (path body : string) : M system unit :=
  λ w, (Ok (),
        mkSystem (<[path := mkFile body (clock w)]> (files w)) (program_mtime w)
                 (clock w) (network w) (log w ++ [FileWrite path body])).

(** [with open(path, "r") as file: file.read()]. *)
Definition read_file (path : string) : M system string :=
  λ w, match files w !! path with
       | Some f => (Ok (content f), record (FileRead path) w)
       | None => (Raise FileNotFoundError, w)
       end.

(** [os.path.exists(path)]. *)
Definition path_exists (path : string) : M system bool :=
  λ w, (Ok (bool_decide (is_Some (files w !! path))), w).

(** [os.path.getmtime(path)]. *)
Definition getmtime (path : string) : M system float :=
  λ w, match files w !! path with
       | Some f => (Ok (mtime f), w)
       | None => (Raise FileNotFoundError, w)
       end.

(** [os.path.getmtime(__file__)]: the running script exists. *)
Definition getmtime_program : M system float :=
  λ w, (Ok (program_mtime w), w).

Section Json.

(** Parsed documents and the parser of [json.load] and [Response.json],
    which raises on a text that is not JSON. *)
Variable json : Type.
Variable json_loads : string → option json.

Definition parse_json (body : string) : M system json :=
  match json_loads body with
  | Some document => mret document
  | None => raise JSONDecodeError
  end.

(** [make_country_request]: the result is [None] for the Python [None] of
    the conditional expression, and [Some] of the parsed document. *)
Definition make_country_request (endpoint : string) : M system (option json) :=
  request ← requests_get endpoint;
  write_file JSON_FILE (text request);;
  if (status_code request =? 200)%Z
  then document ← parse_json (text request); mret (Some document)
  else mret None.

(** [get_country_information]: [or] evaluates its right operand only when
    the file exists. *)
Definition get_country_information (endpoint : string) : M system (option json) :=
  present ← path_exists JSON_FILE;
  stale ← (if negb present then mret true
           else
             cached ← getmtime JSON_FILE;
             program ← getmtime_program;
             mret (PrimFloat.ltb cached (PrimFloat.sub program 86400%float)));
  if (stale : bool)
  then make_country_request endpoint
  else
    body ← read_file JSON_FILE;
    document ← parse_json body;
    mret (Some document).

End Json.

(** ** Score store

    The table [country_information] is the list of its rows in storage
    order. *)

Record row := mkRow { row_id : Z; row_username : string; row_score : Z }.

(** [@dataclass class UserScore]. *)
Record UserScore := mkUserScore { username : string; score : Z }.

(** [ORDER BY score DESC]: the order among rows of equal score is not
    specified by SQL; the model sorts with a merge sort. *)
Definition score_desc (r1 r2 : row) : Prop := row_score r2 ≤ row_score r1.

#[global] Instance score_desc_dec : RelDecision score_desc.
Proof. intros r1 r2. unfold score_desc. apply _. Defined.

Definition order_by_score_desc (rows : list row) : list row :=
  merge_sort score_desc rows.

(** [LIMIT amount]: a negative limit means no limit in SQLite. *)
Definition limit (amount : Z) (rows : list row) : list row :=
  if amount <? 0 then rows else take (Z.to_nat amount) rows.

(** [UserScore(username, int(score))] of a fetched row. *)
Definition to_UserScore (r : row) : UserScore :=
  mkUserScore (row_username r) (row_score r).

(** [get_top_scores]: [SELECT username, score FROM country_information
    ORDER BY score DESC LIMIT ?], each row turned into a [UserScore]. *)
Definition get_top_scores (country_information : list row) (amount : Z)
    : list UserScore :=
  map to_UserScore (limit amount (order_by_score_desc country_information)).

(** ** Score store: the calls as Python makes them

    [cursor.execute] compiles the statement, which fails with
    [OperationalError] when the table is missing or has other columns, then
    binds the parameters: a Python [int] is bound as a 64-bit integer and one
    outside that range raises [OverflowError] before any row is read or
    written. *)

Inductive sqlite_error : Set :=
  | OperationalError
  | OverflowError.

(** The integers SQLite holds. *)
Definition sqlite_int (n : Z) : bool := (- 2 ^ 63 <=? n) && (n <? 2 ^ 63).

(** [get_top_scores(amount)] on the table [country_information]: the rows
    of the statement above once [amount] is bound. *)
Definition execute_get_top_scores (country_information : list row) (amount : Z)
    : sqlite_error + list UserScore :=
  if sqlite_int amount
  then inr (get_top_scores country_information amount)
  else inl OverflowError.

(** The table keeps, beside its rows, the largest id it ever gave out
    ([sqlite_sequence], the counter of an [AUTOINCREMENT] key). *)
Record table := mkTable { table_rows : list row; table_seq : Z }.

(** The database file: without the table, with a table of that name that
    has not the columns of this program, or with the table of this program. *)
Inductive database : Type :=
  | NoTable
  | OtherTable
  | ScoreTable (t : table).

Definition max_id (rows : list row) : Z :=
  foldr Z.max 0 (row_id <$> rows).

(** [create_database_file]: [CREATE TABLE IF NOT EXISTS] leaves a table of
    that name as it is, whatever its columns. *)
Definition create_database_file (db : database) : database :=
  match db with
  | NoTable => ScoreTable (mkTable [] 0)
  | OtherTable => OtherTable
  | ScoreTable t => ScoreTable t
  end.

(** [save_score]: [INSERT INTO country_information (username, score)].  The
    id is SQLite's: one above the counter and above every id of the table,
    and the insert fails ("database or disk is full") once that is the
    largest 64-bit integer. *)
Definition save_score (username : string) (score : Z) (db : database)
    : sqlite_error + database :=
  match db with
  | NoTable => inl OperationalError
  | OtherTable => inl OperationalError
  | ScoreTable t =>
      if negb (sqlite_int score) then inl OverflowError
      else
        let last := Z.max (table_seq t) (max_id (table_rows t)) in
        if 2 ^ 63 - 1 <=? last then inl OperationalError
        else
          inr (ScoreTable (mkTable (table_rows t ++ [mkRow (last + 1) username score])
                                   (last + 1)))
  end.

(** ** Username prompt *)

Section Upper.

(** [len] of a [str]: the number of its characters, which are Unicode code
    points, where the text itself is held as the bytes of its encoding. *)
Variable len : string → nat.

(** [str.upper]. *)
Variable upper : string → string.

(** The loop of [get_user_name], entered with the current [username]. *)
Fixpoint get_user_name_while (fuel : nat) (username : string) : M world string :=
  if bool_decide (len username ≠ 3%nat)
  then match fuel with
       | O => out_of_fuel
       | S fuel =>
           line ← input "Enter your username (3 characters): ";
           get_user_name_while fuel (upper line)
       end
  else mret username.

(** [get_user_name]: every pass reads a line or raises [EOFError]. *)
Definition get_user_name : M world string :=
  λ s, get_user_name_while (S (length (stdin s))) "" s.

End Upper.

(** The code points of a text in UTF-8: the bytes that do not continue a
    character, that is all but those from 128 to 191. *)
Definition starts_character (c : ascii) : bool :=
  let n := nat_of_ascii c in
  negb ((128 <=? n) && (n <=? 191))%nat.

Fixpoint utf8_len (text : string) : nat :=
  match text with
  | EmptyString => 0
  | String c rest => ((if starts_character c then 1 else 0) + utf8_len rest)%nat
  end.

(** [str.upper] on the ASCII letters. *)
Definition upper_ascii (c : ascii) : ascii :=
  let n := nat_of_ascii c in
  if ((97 <=? n) && (n <=? 122))%nat then ascii_of_nat (n - 32) else c.

Fixpoint ascii_upper (text : string) : string :=
  match text with
  | EmptyString => EmptyString
  | String c rest => String (upper_ascii c) (ascii_upper rest)
  end.

(** ** Country catalog builder *)

(** The values [json.load] produces; a [dict] is the list of its items. *)
#[warnings="-register-all"]
Inductive pyval : Type :=
  | PNone
  | PBool (b : bool)
  | PInt (n : Z)
  | PFloat (x : float)
  | PStr (s : string)
  | PList (items : list pyval)
  | PDict (entries : list (string * pyval)).

Inductive lookup_error : Type :=
  | KeyError (key : string)
  | TypeError.

Fixpoint dict_get (key : string) (entries : list (string * pyval)) : option pyval :=
  match entries with
  | [] => None
  | (k, v) :: rest => if (k =? key)%string then Some v else dict_get key rest
  end.

(** [v[key]] for a string [key]: only a [dict] can be indexed by a string. *)
Definition getitem (v : pyval) (key : string) : lookup_error + pyval :=
  match v with
  | PDict entries =>
      match dict_get key entries with
      | Some x => inr x
      | None => inl (KeyError key)
      end
  | _ => inl TypeError
  end.

Fixpoint characters (text : string) : list pyval :=
  match text with
  | EmptyString => []
  | String c rest => PStr (String c EmptyString) :: characters rest
  end.

(** [for country in country_information]: a list gives its items, a [dict]
    its keys, a string its characters; nothing else can be iterated.  The
    argument is [None] for the Python [None] of a failed fetch. *)
Definition iterate (country_information : option pyval) : lookup_error + list pyval :=
  match country_information with
  | Some (PList items) => inr items
  | Some (PDict entries) => inr (PStr <$> entries.*1)
  | Some (PStr text) => inr (characters text)
  | _ => inl TypeError
  end.

(** The object [Country(name, population)] as the constructor leaves it: a
    dataclass stores its arguments whatever their types. *)
Record CountryObject := Country_init { name_field : pyval; population_field : pyval }.

(** The body of the [for] loop over the records left, with the list built so
    far. *)
Fixpoint append_countries (records : list pyval) (countries : list CountryObject)
    : lookup_error + list CountryObject :=
  match records with
  | [] => inr countries
  | country :: rest =>
      match getitem country "name" with
      | inl e => inl e
      | inr names =>
          match getitem names "common" with
          | inl e => inl e
          | inr name =>
              match getitem country "population" with
              | inl e => inl e
              | inr population =>
                  append_countries rest (countries ++ [Country_init name population])
              end
          end
      end
  end.

(** [get_country_names_and_populations_info]. *)
Definition get_country_names_and_populations_info (country_information : option pyval)
    : lookup_error + list CountryObject :=
  match iterate country_information with
  | inl e => inl e
  | inr records => append_countries records []
  end.

(** The object of a country whose fields have the annotated types, and back. *)
Definition to_object (c : Country) : CountryObject :=
  Country_init (PStr (name c)) (PInt (population c)).

Definition of_object (o : CountryObject) : option Country :=
  match name_field o, population_field o with
  | PStr s, PInt n => Some (mkCountry s n)
  | _, _ => None
  end.

(** ** Auxiliary definitions of the statements *)

(** Steps 1 to 3 of one call, up to the equality test. *)
Definition roll (country_1 country_2 : option Country)
    (names_and_populations : list Country) : M world (Country * Country) :=
  country_1 ← match country_1 with
               | None => choice names_and_populations
               | Some c => mret c
               end;
  country_2 ← match country_2 with
               | None => choice names_and_populations
               | Some c => mret c
               end;
  coin ← randint 0 1;
  if (coin =? 0)%Z
  then c ← choice names_and_populations; mret (c, country_2)
  else c ← choice names_and_populations; mret (country_1, c).




Definition has_two_unequal (cat : list Country) : Prop :=
  ∃ a b, a ∈ cat ∧ b ∈ cat ∧ a ≠ b.

Definition known (cat : list Country) (p : option Country) : Prop :=
  match p with
  | None => True
  | Some c => c ∈ cat
  end.

Definition keep_or_choose (p : option Country) (cat : list Country) : M world Country :=
  match p with
  | None => choice cat
  | Some c => mret c
  end.

(** The guesses judged correct in a run are the prints of "Correct!". *)
Definition correct_guesses (evs : list event) : Z :=
  Z.of_nat (length (filter (λ e, e = EPrint "Correct!") evs)).

(** Nothing follows a print of "Incorrect!" in [evs]. *)
Definition ends_at_incorrect (evs : list event) : Prop :=
  ∀ pre post, evs = pre ++ EPrint "Incorrect!" :: post → post = [].

(** Events other than the two verdicts. *)
Definition quiet (e : event) : Prop :=
  e ≠ EPrint "Correct!" ∧ e ≠ EPrint "Incorrect!".

(** The cached file exists and is not older than a day before the script. *)
Definition cache_not_older (w : system) : Prop :=
  ∃ f, files w !! JSON_FILE = Some f
    ∧ PrimFloat.ltb (mtime f) (PrimFloat.sub (program_mtime w) 86400%float) = false.

(** The cached file exists and is newer than a day before the script. *)
Definition cache_newer (w : system) : Prop :=
  ∃ f, files w !! JSON_FILE = Some f
    ∧ PrimFloat.ltb (PrimFloat.sub (program_mtime w) 86400%float) (mtime f) = true.

(** Each entry is at most every entry before it. *)
Definition non_increasing (l : list Z) : Prop :=
  ∀ i j a b, (i < j)%nat → l !! i = Some a → l !! j = Some b → b ≤ a.

(** The rows of the table, none when the table does not exist. *)
Definition stored_rows (db : database) : list row :=
  match db with
  | ScoreTable t => table_rows t
  | NoTable | OtherTable => []
  end.

Definition username_prompt : string := "Enter your username (3 characters): ".

(** A line [get_user_name] refuses: its uppercase has not three characters. *)
Definition rejected (len : string → nat) (upper : string → string)
    (line : string) : Prop :=
  len (upper line) ≠ 3%nat.

(** The console after [k] prompts that read the lines before [rest]. *)
Definition after_prompts (prompt : string) (k : nat) (rest : list string)
    (s : world) : world :=
  mkWorld rest (tape s) (cursor s) (stdout s ++ replicate k (EInput prompt)).

(** The record has the two fields the loop reads, with these values. *)
Definition holds_fields (country : pyval) (o : CountryObject) : Prop :=
  ∃ names, getitem country "name" = inr names
    ∧ getitem names "common" = inr (name_field o)
    ∧ getitem country "population" = inr (population_field o).

(** The first of the three lookups of the loop body that fails on the
    record, in the order the body makes them, fails with [e]. *)
Definition field_error (country : pyval) (e : lookup_error) : Prop :=
  getitem country "name" = inl e
  ∨ ∃ names, getitem country "name" = inr names
      ∧ (getitem names "common" = inl e
         ∨ ∃ name, getitem names "common" = inr name
             ∧ getitem country "population" = inl e).

(** A record as the countries API sends it, with fields the game ignores. *)
Definition api_record (c : Country) (region : string) : pyval :=
  PDict [("name", PDict [("common", PStr (name c)); ("official", PStr (name c))]);
         ("region", PStr region);
         ("population", PInt (population c))].

(** What [json.load] gives on a text: the document, or the exception.  The
    document is under [Some] also when it is JSON [null], which Python reads
    as the same [None] a failed fetch returns. *)
Definition loaded {json : Type} (json_loads : string → option json) (body : string)
    : outcome (option json) :=
  match json_loads body with
  | Some document => Ok (Some document)
  | None => Raise JSONDecodeError
  end.

(** A write made now stamps the file with a time that is not older than a
    day before the script. *)
Definition clock_not_older (w : system) : Prop :=
  PrimFloat.ltb (clock w) (PrimFloat.sub (program_mtime w) 86400%float) = false.

Definition continue_prompt : string := "Would you like to continue? (y/n) ".

(** The body of the continue loop: [input(...).lower()]. *)
Definition input_lower (prompt : string) : M world string :=
  line ← input prompt; mret (lower line).

(** Sample data of the examples. *)
Definition usa : Country := mkCountry "USA" 331000000.
Definition canada : Country := mkCountry "Canada" 38000000.
Definition demo_catalog : list Country := [usa; canada].

(** A console whose generator draws [draws] and then zeros. *)
Definition demo_world (lines : list string) (draws : list nat) : world :=
  mkWorld lines (λ i, default 0%nat (draws !! i)) 0 [].

(** A cache written exactly 86400 seconds before the script, and no server. *)
Definition boundary_system : system :=
  mkSystem {[ JSON_FILE := mkFile "[]" 1700000000%float ]} 1700086400%float
           1700090000%float (λ _, None) [].

(** A stale cache and a server that answers 404. *)
Definition stale_system : system :=
  mkSystem {[ JSON_FILE := mkFile "[]" 1700000000%float ]} 1700086401%float
           1700090000%float (λ _, Some (mkResponse 404 "Not Found")) [].

Definition demo_table : list row :=
  [mkRow 1 "AAA" 3; mkRow 2 "BBB" 7; mkRow 3 "CCC" 3; mkRow 4 "DDD" 9].

(** * Properties *)

Module GuessEvaluator.

Lemma check_user_guess_1 c1 c2 :
  check_user_guess c1 c2 "1" = (population c1 >=? population c2).
Proof. unfold check_user_guess. simpl. by destruct (_ >=? _). Qed.

Lemma check_user_guess_not_1 c1 c2 g :
  g ≠ "1" → check_user_guess c1 c2 g = (population c2 >=? population c1).
Proof.
  intros Hg. unfold check_user_guess.
  apply String.eqb_neq in Hg. rewrite Hg. simpl. by destruct (_ >=? _).
Qed.

(** C1: for a guess that is "1" or "2", the evaluator answers true exactly
    when the guess is "1" and the first population is at least the second, or
    the guess is "2" and the second population is at least the first; with
    equal populations both guesses are right, and with a strictly larger
    first population "1" is right and "2" is wrong. *)
Theorem check_user_guess_spec (c1 c2 : Country) (g : string) :
  g = "1" ∨ g = "2" →
  (check_user_guess c1 c2 g = true ↔
     (g = "1" ∧ population c1 >= population c2) ∨
     (g = "2" ∧ population c2 >= population c1))
  ∧ (population c1 = population c2 →
       check_user_guess c1 c2 "1" = true ∧ check_user_guess c1 c2 "2" = true)
  ∧ (population c1 > population c2 →
       check_user_guess c1 c2 "1" = true ∧ check_user_guess c1 c2 "2" = false).
Proof.
  intros Hg.
  rewrite !check_user_guess_1, !(check_user_guess_not_1 _ _ "2") by discriminate.
  split; [|split].
  - destruct Hg as [-> | ->].
    + rewrite check_user_guess_1, Z.geb_le. split.
      * intros H. left. split; [done | lia].
      * intros [[_ H] | [H _]]; [lia | discriminate].
    + rewrite check_user_guess_not_1 by discriminate. rewrite Z.geb_le. split.
      * intros H. right. split; [done | lia].
      * intros [[H _] | [_ H]]; [discriminate | lia].
  - intros ->. split; apply Z.geb_le; lia.
  - intros H. split; [apply Z.geb_le; lia |].
    apply not_true_is_false. rewrite Z.geb_le. lia.
Qed.

Lemma check_user_guess_spec_witness :
  ("1" = "1" ∨ "1" = "2") ∧
  check_user_guess (mkCountry "USA" 331000000) (mkCountry "Canada" 38000000) "1" = true ∧
  check_user_guess (mkCountry "USA" 331000000) (mkCountry "Canada" 38000000) "2" = false.
Proof.
  split; [by left |].
  apply (check_user_guess_spec (mkCountry "USA" 331000000)
           (mkCountry "Canada" 38000000) "1"); [by left | simpl; lia].
Defined.

(** C8: every guess string other than "1" is judged as a choice of the
    second country: the answer is [population c2 >= population c1]. *)
Theorem check_user_guess_other (c1 c2 : Country) (g : string) :
  g ≠ "1" → check_user_guess c1 c2 g = (population c2 >=? population c1).
Proof. apply check_user_guess_not_1. Qed.

Lemma check_user_guess_other_witness :
  "x" ≠ "1" ∧
  check_user_guess (mkCountry "USA" 331000000) (mkCountry "Canada" 38000000) "x"
  = (38000000 >=? 331000000).
Proof.
  split; [discriminate |].
  apply (check_user_guess_other (mkCountry "USA" 331000000)
           (mkCountry "Canada" 38000000) "x"). discriminate.
Defined.

End GuessEvaluator.

Lemma bind_Ok_inv {St A B} (m : M St A) (f : A → M St B) s b s' :
  (m ≫= f) s = (Ok b, s') → ∃ a s1, m s = (Ok a, s1) ∧ f a s1 = (Ok b, s').
Proof.
  unfold mbind, M_bind. destruct (m s) as [[a | e |] s1]; [eauto | done | done].
Qed.

Lemma bind_Ok {St A B} (m : M St A) (f : A → M St B) s a s1 :
  m s = (Ok a, s1) → (m ≫= f) s = f a s1.
Proof. unfold mbind, M_bind. by intros ->. Qed.

Module RandomFacts.

Lemma choice_nonempty {A} (seq : list A) s :
  seq ≠ [] →
  ∃ x, seq !! (tape s (cursor s) `mod` length seq)%nat = Some x
       ∧ choice seq s = (Ok x, advance s).
Proof.
  intros Hne. destruct seq as [| y seq']; [done |].
  set (seq := y :: seq') in *.
  assert (Hlt : (tape s (cursor s) `mod` length seq < length seq)%nat)
    by (apply Nat.mod_upper_bound; done).
  destruct (lookup_lt_is_Some_2 _ _ Hlt) as [x Hx].
  exists x. split; [done |].
  unfold choice, seq at 1. unfold mbind, M_bind, randbelow. by rewrite Hx.
Qed.

Lemma choice_Ok_inv {A} (seq : list A) s x s' :
  choice seq s = (Ok x, s') →
  seq !! (tape s (cursor s) `mod` length seq)%nat = Some x ∧ s' = advance s.
Proof.
  intros H. destruct (decide (seq = [])) as [-> | Hne]; [done |].
  destruct (choice_nonempty seq s Hne) as (y & Hy & Hc).
  rewrite Hc in H. by simplify_eq.
Qed.

Lemma choice_elem_of {A} (seq : list A) s x s' :
  choice seq s = (Ok x, s') → x ∈ seq.
Proof. intros [H _]%choice_Ok_inv. by eapply list_elem_of_lookup_2. Qed.

Lemma randint_0_1 s :
  randint 0 1 s = (Ok (Z.of_nat (tape s (cursor s) `mod` 2)), advance s).
Proof. reflexivity. Qed.

End RandomFacts.

Module RoundSelector.
Import RandomFacts.

Lemma set_countries_unfold fuel p1 p2 cat s :
  set_countries (S fuel) p1 p2 cat s =
  match roll p1 p2 cat s with
  | (Ok (c1, c2), s') =>
      if decide (c1 = c2) then set_countries fuel (Some c1) (Some c2) cat s'
      else (Ok (c1, c2), s')
  | (Raise e, s') => (Raise e, s')
  | (OutOfFuel, s') => (OutOfFuel, s')
  end.
Proof.
  simpl. unfold roll, mbind, M_bind.
  repeat (match goal with
          | |- context [match ?x with _ => _ end] =>
              lazymatch x with
              | decide _ => fail
              | _ => destruct x eqn:?
              end
          end; simpl; try done).
  all: by destruct (decide _).
Qed.

Lemma keep_or_choose_Ok_inv p cat s c s' :
  keep_or_choose p cat s = (Ok c, s') → p = Some c ∨ c ∈ cat.
Proof.
  destruct p as [c0 |]; simpl.
  - intros [= -> _]. by left.
  - intros H. right. by eapply choice_elem_of.
Qed.

Lemma roll_Ok_inv p1 p2 cat s c1 c2 s' :
  roll p1 p2 cat s = (Ok (c1, c2), s') →
  (p1 = Some c1 ∨ c1 ∈ cat) ∧ (p2 = Some c2 ∨ c2 ∈ cat).
Proof.
  unfold roll. fold (keep_or_choose p1 cat) (keep_or_choose p2 cat).
  intros (a1 & s1 & H1 & H)%bind_Ok_inv.
  apply bind_Ok_inv in H as (a2 & s2 & H2 & H).
  apply bind_Ok_inv in H as (coin & s3 & _ & H).
  apply keep_or_choose_Ok_inv in H1, H2.
  destruct (coin =? 0)%Z;
    apply bind_Ok_inv in H as (c & s4 & Hc & [= <- <- _]);
    apply choice_elem_of in Hc; auto.
Qed.

Lemma set_countries_unequal fuel : ∀ p1 p2 cat s c1 c2 s',
  set_countries fuel p1 p2 cat s = (Ok (c1, c2), s') → c1 ≠ c2.
Proof.
  induction fuel as [| fuel IH]; intros p1 p2 cat s c1 c2 s'; [done |].
  rewrite set_countries_unfold.
  destruct (roll p1 p2 cat s) as [[[a1 a2] | e |] s1]; [| done | done].
  destruct (decide (a1 = a2)) as [_ | Hne]; [apply IH |].
  by intros [= <- <- _].
Qed.

Lemma set_countries_elem_of fuel : ∀ p1 p2 cat s c1 c2 s',
  known cat p1 → known cat p2 →
  set_countries fuel p1 p2 cat s = (Ok (c1, c2), s') → c1 ∈ cat ∧ c2 ∈ cat.
Proof.
  induction fuel as [| fuel IH]; intros p1 p2 cat s c1 c2 s' K1 K2; [done |].
  rewrite set_countries_unfold.
  destruct (roll p1 p2 cat s) as [[[a1 a2] | e |] s1] eqn:Hroll; [| done | done].
  apply roll_Ok_inv in Hroll as [Ha1 Ha2].
  assert (a1 ∈ cat) by (destruct Ha1 as [-> |]; done).
  assert (a2 ∈ cat) by (destruct Ha2 as [-> |]; done).
  destruct (decide (a1 = a2)) as [_ | Hne]; [by apply IH |].
  by intros [= <- <- _].
Qed.







Lemma keep_or_choose_total p cat s :
  cat ≠ [] → ∃ c s', keep_or_choose p cat s = (Ok c, s').
Proof.
  intros Hne. destruct p as [c |]; simpl; [by eauto |].
  destruct (choice_nonempty cat s Hne) as (x & _ & ->). eauto.
Qed.

Lemma roll_total p1 p2 cat s :
  cat ≠ [] → ∃ c1 c2 s', roll p1 p2 cat s = (Ok (c1, c2), s').
Proof.
  intros Hne. unfold roll. fold (keep_or_choose p1 cat) (keep_or_choose p2 cat).
  destruct (keep_or_choose_total p1 cat s Hne) as (c1 & s1 & H1).
  destruct (keep_or_choose_total p2 cat s1 Hne) as (c2 & s2 & H2).
  rewrite (bind_Ok _ _ _ _ _ H1), (bind_Ok _ _ _ _ _ H2).
  rewrite (bind_Ok _ _ _ _ _ (randint_0_1 s2)).
  destruct (choice_nonempty cat (advance s2) Hne) as (x & _ & Hx).
  destruct (_ =? 0)%Z; rewrite (bind_Ok _ _ _ _ _ Hx); by eauto.
Qed.

(** On a catalog that is not empty no call of [choice] fails: the selector
    returns or it is still re-rolling when the fuel ends. *)
Lemma set_countries_no_raise fuel : ∀ p1 p2 cat s e s',
  cat ≠ [] → set_countries fuel p1 p2 cat s ≠ (Raise e, s').
Proof.
  induction fuel as [| fuel IH]; intros p1 p2 cat s e s' Hne; [done |].
  rewrite set_countries_unfold.
  destruct (roll_total p1 p2 cat s Hne) as (c1 & c2 & s1 & ->).
  destruct (decide (c1 = c2)); [by apply IH | done].
Qed.

(** The selector reads no input and prints nothing. *)
Lemma keep_or_choose_console p cat s r s' :
  keep_or_choose p cat s = (r, s') → stdin s' = stdin s ∧ stdout s' = stdout s.
Proof.
  destruct p as [c |]; simpl; [by intros [= _ <-] |].
  destruct cat as [| y cat']; [by intros [= _ <-] |].
  unfold choice, mbind, M_bind, randbelow.
  destruct (_ !! _); by intros [= _ <-].
Qed.

Lemma roll_console p1 p2 cat s r s' :
  roll p1 p2 cat s = (r, s') → stdin s' = stdin s ∧ stdout s' = stdout s.
Proof.
  unfold roll. fold (keep_or_choose p1 cat) (keep_or_choose p2 cat).
  unfold mbind at 1, M_bind at 1.
  destruct (keep_or_choose p1 cat s) as [o1 s1] eqn:H1.
  apply keep_or_choose_console in H1 as [<- <-].
  destruct o1 as [c1 | |]; [| by intros [= _ <-] ..].
  unfold mbind at 1, M_bind at 1.
  destruct (keep_or_choose p2 cat s1) as [o2 s2] eqn:H2.
  apply keep_or_choose_console in H2 as [<- <-].
  destruct o2 as [c2 | |]; [| by intros [= _ <-] ..].
  rewrite (bind_Ok _ _ _ _ _ (randint_0_1 s2)).
  destruct (_ =? 0)%Z; unfold mbind, M_bind;
    destruct (choice cat (advance s2)) as [o3 s3] eqn:H3;
    change (choice cat) with (keep_or_choose None cat) in H3;
    apply keep_or_choose_console in H3 as [E3 E3'];
    destruct o3; by intros [= _ <-].
Qed.

Lemma set_countries_console fuel : ∀ p1 p2 cat s r s',
  set_countries fuel p1 p2 cat s = (r, s') →
  stdin s' = stdin s ∧ stdout s' = stdout s.
Proof.
  induction fuel as [| fuel IH]; intros p1 p2 cat s r s'; [by intros [= _ <-] |].
  rewrite set_countries_unfold.
  destruct (roll p1 p2 cat s) as [o s1] eqn:Hroll.
  apply roll_console in Hroll as [<- <-].
  destruct o as [[c1 c2] | |]; [| by intros [= _ <-] ..].
  destruct (decide (c1 = c2)); [apply IH | by intros [= _ <-]].
Qed.

(** C9: on a non-empty catalog, with each previous country absent or an
    element of the catalog, both countries of a returned pair are elements of
    the catalog. *)
Theorem set_countries_in_catalog fuel (cat : list Country) p1 p2 s c1 c2 s' :
  cat ≠ [] → known cat p1 → known cat p2 →
  set_countries fuel p1 p2 cat s = (Ok (c1, c2), s') →
  c1 ∈ cat ∧ c2 ∈ cat.
Proof. intros _. apply set_countries_elem_of. Qed.


Lemma set_countries_in_catalog_witness :
  (set_countries 1 None None demo_catalog (demo_world [] [0; 1; 0; 0]%nat)).1
  = Ok (usa, canada)
  ∧ usa ∈ demo_catalog ∧ canada ∈ demo_catalog.
Proof.
  split; [vm_compute; reflexivity |].
  eapply (set_countries_in_catalog 1 demo_catalog None None
            (demo_world [] [0; 1; 0; 0]%nat) usa canada);
    [done | exact I | exact I | vm_compute; reflexivity].
Defined.





End RoundSelector.

Module GameLoop.
Import RoundSelector.

Lemma emit_emit evs1 evs2 s : emit evs2 (emit evs1 s) = emit (evs1 ++ evs2) s.
Proof. unfold emit. simpl. by rewrite app_assoc. Qed.

Lemma string_length_app (a b : string) :
  String.length (a +:+ b) = (String.length a + String.length b)%nat.
Proof.
  induction a as [| c a IH]; [done |].
  change (String c a +:+ b) with (String c (a +:+ b)). simpl. by rewrite IH.
Qed.

Lemma correct_guesses_app evs1 evs2 :
  correct_guesses (evs1 ++ evs2) = correct_guesses evs1 + correct_guesses evs2.
Proof. unfold correct_guesses. rewrite filter_app, length_app. lia. Qed.

Lemma correct_guesses_quiet evs : Forall quiet evs → correct_guesses evs = 0.
Proof.
  unfold correct_guesses. induction 1 as [| e evs [He _] _ IH]; [done |].
  by rewrite filter_cons_False.
Qed.

Lemma ends_at_incorrect_nil : ends_at_incorrect [].
Proof. intros pre post H. by destruct pre. Qed.

Lemma ends_at_incorrect_last : ends_at_incorrect [EPrint "Incorrect!"].
Proof.
  intros pre post H. destruct pre as [| e pre]; simpl in H; [congruence |].
  injection H as _ H. by destruct pre.
Qed.

Lemma ends_at_incorrect_cons e evs :
  e ≠ EPrint "Incorrect!" → ends_at_incorrect evs → ends_at_incorrect (e :: evs).
Proof.
  intros He H pre post Heq. destruct pre as [| e' pre]; simpl in Heq.
  - congruence.
  - injection Heq as _ Heq. by eapply H.
Qed.

Lemma ends_at_incorrect_app evs1 evs2 :
  Forall (λ e, e ≠ EPrint "Incorrect!") evs1 →
  ends_at_incorrect evs2 → ends_at_incorrect (evs1 ++ evs2).
Proof.
  induction 1 as [| e evs1 He _ IH]; [done |]. intros H.
  simpl. apply ends_at_incorrect_cons; auto.
Qed.

Lemma quiet_input prompt : quiet (EInput prompt).
Proof. by split. Qed.

Lemma quiet_inputs prompt k : Forall quiet (replicate k (EInput prompt)).
Proof. apply Forall_replicate, quiet_input. Qed.

Lemma quiet_not_incorrect evs :
  Forall quiet evs → Forall (λ e, e ≠ EPrint "Incorrect!") evs.
Proof. intros H. eapply Forall_impl; [exact H |]. by intros e [_ He]. Qed.

(** *** The two input loops *)

Lemma input_trace prompt s r s' :
  input prompt s = (r, s') →
  stdout s' = stdout s ++ [EInput prompt]
  ∧ ((∃ line, r = Ok line ∧ length (stdin s') < length (stdin s))%nat
     ∨ ∃ e, r = Raise e).
Proof.
  unfold input. destruct (stdin s) as [| line rest] eqn:Hin.
  - intros [= <- <-]. split; [done | right; eauto].
  - intros [= <- <-]. simpl. split; [done | left]. exists line. split; [done | lia].
Qed.

Lemma input_lower_trace prompt s r s' :
  (line ← input prompt; mret (lower line)) s = (r, s') →
  stdout s' = stdout s ++ [EInput prompt]
  ∧ ((∃ line, r = Ok line ∧ length (stdin s') < length (stdin s))%nat
     ∨ ∃ e, r = Raise e).
Proof.
  unfold mbind, M_bind. destruct (input prompt s) as [o s1] eqn:H.
  apply input_trace in H as [Hout [(line & -> & Hlt) | [e ->]]].
  - intros [= <- <-]. split; [done | left]. eauto.
  - intros [= <- <-]. split; [done | right]. eauto.
Qed.

Section Loop.

Variable prompt : string.
Variable body : M world string.
Hypothesis body_trace : ∀ s r s',
  body s = (r, s') →
  stdout s' = stdout s ++ [EInput prompt]
  ∧ ((∃ line, r = Ok line ∧ length (stdin s') < length (stdin s))%nat
     ∨ ∃ e, r = Raise e).

Lemma while_not_in_fuel_trace fuel accepted : ∀ x s r s',
  while_not_in_fuel fuel accepted body x s = (r, s') →
  ∃ k, stdout s' = stdout s ++ replicate k (EInput prompt).
Proof.
  induction fuel as [| fuel IH]; intros x s r s'; simpl.
  - case_bool_decide; intros [= _ <-]; exists 0%nat; simpl; by rewrite app_nil_r.
  - case_bool_decide.
    { intros [= _ <-]. exists 0%nat. simpl. by rewrite app_nil_r. }
    unfold mbind, M_bind. destruct (body s) as [o s1] eqn:Hb.
    apply body_trace in Hb as [Hout _].
    destruct o as [y | e |].
    + intros (k & Hk)%IH. exists (S k). rewrite Hk, Hout. simpl.
      by rewrite <- app_assoc.
    + intros [= _ <-]. by exists 1%nat.
    + intros [= _ <-]. by exists 1%nat.
Qed.

(** With more fuel than lines left the loop ends by itself. *)
Lemma while_not_in_fuel_enough fuel accepted : ∀ x s,
  (length (stdin s) < fuel)%nat →
  (while_not_in_fuel fuel accepted body x s).1 ≠ OutOfFuel.
Proof.
  induction fuel as [| fuel IH]; intros x s Hlen; [lia |]. simpl.
  case_bool_decide; [done |].
  unfold mbind, M_bind. destruct (body s) as [o s1] eqn:Hb.
  apply body_trace in Hb as [_ [(line & -> & Hlt) | [e ->]]]; [| done].
  apply IH. lia.
Qed.

(** A loop that returns has read at least one line, unless it was entered
    with an accepted value. *)
Lemma while_not_in_fuel_stdin fuel accepted : ∀ x s y s',
  while_not_in_fuel fuel accepted body x s = (Ok y, s') →
  (length (stdin s') ≤ length (stdin s))%nat
  ∧ (x ∉ accepted → (length (stdin s') < length (stdin s))%nat).
Proof.
  induction fuel as [| fuel IH]; intros x s y s'; simpl.
  - case_bool_decide; [| done]. intros [= _ <-]. split; [lia | done].
  - case_bool_decide as Hx.
    { intros [= _ <-]. split; [lia | done]. }
    unfold mbind, M_bind. destruct (body s) as [o s1] eqn:Hb.
    apply body_trace in Hb as [_ [(line & -> & Hlt) | [e ->]]]; [| done].
    intros [Hle _]%IH. split; [lia | intros _; lia].
Qed.

Lemma while_not_in_stdin accepted x s y s' :
  while_not_in accepted body x s = (Ok y, s') →
  (length (stdin s') ≤ length (stdin s))%nat
  ∧ (x ∉ accepted → (length (stdin s') < length (stdin s))%nat).
Proof. apply while_not_in_fuel_stdin. Qed.

Lemma while_not_in_trace accepted x s r s' :
  while_not_in accepted body x s = (r, s') →
  ∃ k, stdout s' = stdout s ++ replicate k (EInput prompt).
Proof. apply while_not_in_fuel_trace. Qed.

Lemma while_not_in_total accepted x s :
  (while_not_in accepted body x s).1 ≠ OutOfFuel.
Proof. apply while_not_in_fuel_enough. lia. Qed.

End Loop.

Section Rounds.

Variable format_n : Z → string.
Variable depth : nat.
Variable names_and_populations : list Country.

Lemma Country_str_quiet c : quiet (EPrint (Country_str format_n c)).
Proof.
  split; intros [= H]; apply (f_equal String.length) in H;
    unfold Country_str in H; rewrite !string_length_app in H;
    simpl in H; lia.
Qed.

Lemma current_score_quiet n :
  quiet (EPrint ("Your current score is " +:+ repr n +:+ ".")).
Proof. split; intros [= H]; discriminate H. Qed.

Lemma final_score_quiet n :
  quiet (EPrint ("Your score was " +:+ repr n +:+ ".")).
Proof. split; intros [= H]; discriminate H. Qed.


Lemma game_loop_while_trace fuel : ∀ p1 p2 score s n s',
  game_loop_while format_n fuel depth p1 p2 score names_and_populations s = (Ok n, s') →
  ∃ evs, stdout s' = stdout s ++ evs
    ∧ n = score + correct_guesses evs
    ∧ ends_at_incorrect evs.
Proof.
  induction fuel as [| fuel IH]; intros p1 p2 score s n s'; [done |].
  simpl. intros ([c1 c2] & s1 & Hset & H)%bind_Ok_inv. simpl in H.
  apply set_countries_console in Hset as [_ Hout1].
  apply bind_Ok_inv in H as (g & s2 & Hguess & H).
  apply (while_not_in_trace _ _ (input_trace _)) in Hguess as (k & Hout2).
  apply bind_Ok_inv in H as ([] & s3 & [= <-] & H).
  apply bind_Ok_inv in H as ([] & s4 & [= <-] & H).
  pose proof (quiet_inputs (guess_prompt c1 c2) k) as Qk.
  pose proof (Country_str_quiet c1) as Q1.
  pose proof (Country_str_quiet c2) as Q2.
  assert (Q12 : Forall quiet [EPrint (Country_str format_n c1);
                              EPrint (Country_str format_n c2)]) by auto.
  destruct (check_user_guess c1 c2 g).
  - apply bind_Ok_inv in H as ([] & s5 & [= <-] & H).
    apply bind_Ok_inv in H as (pa & s6 & Hpa & H).
    apply (while_not_in_trace _ _ (input_lower_trace _)) in Hpa as (j & Hout6).
    pose proof (quiet_inputs "Would you like to continue? (y/n) " j) as Qj.
    simpl in Hout6.
    destruct (pa =? "n")%string.
    + injection H as <- <-.
      exists (replicate k (EInput (guess_prompt c1 c2))
              ++ [EPrint (Country_str format_n c1); EPrint (Country_str format_n c2)]
              ++ [EPrint "Correct!"]
              ++ replicate j (EInput "Would you like to continue? (y/n) ")).
      split_and!.
      * rewrite Hout6, Hout2, Hout1. by rewrite <- !app_assoc.
      * rewrite !correct_guesses_app.
        rewrite (correct_guesses_quiet _ Qk), (correct_guesses_quiet _ Q12),
          (correct_guesses_quiet _ Qj).
        change (correct_guesses [EPrint "Correct!"]) with 1. lia.
      * apply ends_at_incorrect_app; [by apply quiet_not_incorrect |].
        apply ends_at_incorrect_app; [by apply quiet_not_incorrect |].
        apply ends_at_incorrect_cons; [done |].
        intros pre post Heq.
        assert (Hin : EPrint "Incorrect!" ∈
                  replicate j (EInput "Would you like to continue? (y/n) "))
          by (rewrite Heq; apply elem_of_app; right; by left).
        by apply elem_of_replicate in Hin as [[=] _].
    + apply bind_Ok_inv in H as ([] & s7 & [= <-] & H).
      apply IH in H as (evs & Hout & Hn & Hends). simpl in Hout.
      exists (replicate k (EInput (guess_prompt c1 c2))
              ++ [EPrint (Country_str format_n c1); EPrint (Country_str format_n c2)]
              ++ [EPrint "Correct!"]
              ++ replicate j (EInput "Would you like to continue? (y/n) ")
              ++ [EPrint ("Your current score is " +:+ repr (score + 1) +:+ ".")]
              ++ evs).
      pose proof (current_score_quiet (score + 1)) as Qc.
      assert (Qc' : Forall quiet
                [EPrint ("Your current score is " +:+ repr (score + 1) +:+ ".")])
        by auto.
      split_and!.
      * rewrite Hout, Hout6, Hout2, Hout1. by rewrite <- !app_assoc.
      * rewrite Hn, !correct_guesses_app.
        rewrite (correct_guesses_quiet _ Qk), (correct_guesses_quiet _ Q12),
          (correct_guesses_quiet _ Qj).
        rewrite (correct_guesses_quiet _ Qc').
        change (correct_guesses [EPrint "Correct!"]) with 1. lia.
      * apply ends_at_incorrect_app; [by apply quiet_not_incorrect |].
        apply ends_at_incorrect_app; [by apply quiet_not_incorrect |].
        apply ends_at_incorrect_cons; [done |].
        apply ends_at_incorrect_app; [by apply quiet_not_incorrect |].
        apply ends_at_incorrect_cons; [apply Qc | done].
  - apply bind_Ok_inv in H as ([] & s5 & [= <-] & H).
    injection H as <- <-.
    exists (replicate k (EInput (guess_prompt c1 c2))
            ++ [EPrint (Country_str format_n c1); EPrint (Country_str format_n c2)]
            ++ [EPrint "Incorrect!"]).
    split_and!.
    + simpl. rewrite Hout2, Hout1. by rewrite <- !app_assoc.
    + rewrite !correct_guesses_app.
      rewrite (correct_guesses_quiet _ Qk), (correct_guesses_quiet _ Q12).
      change (correct_guesses [EPrint "Incorrect!"]) with 0. lia.
    + apply ends_at_incorrect_app; [by apply quiet_not_incorrect |].
      apply ends_at_incorrect_app; [by apply quiet_not_incorrect |].
      apply ends_at_incorrect_last.
Qed.

(** The rounds of the loop never outnumber the lines of input: when the
    model of the loop stops for lack of fuel, it is the selector that was
    still re-rolling at the end of its own. *)
Lemma game_loop_while_fuel_enough fuel : ∀ p1 p2 score s s',
  (length (stdin s) < fuel)%nat →
  game_loop_while format_n fuel depth p1 p2 score names_and_populations s
  = (OutOfFuel, s') →
  ∃ q1 q2 s0 s0',
    set_countries depth q1 q2 names_and_populations s0 = (OutOfFuel, s0').
Proof.
  induction fuel as [| fuel IH]; intros p1 p2 score s s' Hlen; [lia |].
  simpl. unfold mbind at 1, M_bind at 1.
  destruct (set_countries depth p1 p2 names_and_populations s)
    as [[[c1 c2] | e |] s1] eqn:Hset; [| done | by eauto].
  apply set_countries_console in Hset as [Hin1 _].
  unfold mbind at 1, M_bind at 1.
  destruct (while_not_in ["1"; "2"] (input (guess_prompt c1 c2)) "" s1)
    as [o s2] eqn:Hguess.
  pose proof (while_not_in_total _ _ (input_trace (guess_prompt c1 c2))
                ["1"; "2"] "" s1) as Htot.
  rewrite Hguess in Htot. destruct o as [g | e |]; [| done | done].
  apply (while_not_in_stdin _ _ (input_trace _)) in Hguess as [_ Hin2].
  assert (Hlt2 : (length (stdin s2) < length (stdin s1))%nat).
  { apply Hin2. intros H. repeat (apply elem_of_cons in H as [[=] | H]).
    by apply not_elem_of_nil in H. }
  unfold mbind at 1 2, M_bind at 1 2, print. simpl.
  destruct (check_user_guess c1 c2 g); [| done].
  unfold mbind at 1 2, M_bind at 1 2. simpl.
  match goal with
  | |- context [while_not_in ?acc ?b ?x ?w] =>
      pose proof (while_not_in_total _ _
                    (input_lower_trace "Would you like to continue? (y/n) ")
                    acc x w) as Htot6;
      destruct (while_not_in acc b x w) as [o s6] eqn:Hpa
  end.
  destruct o as [pa | e |]; [| done | done].
  apply (while_not_in_stdin _ _ (input_lower_trace _)) in Hpa as [Hin6 _].
  simpl in Hin6.
  destruct (pa =? "n")%string; [done |].
  unfold mbind, M_bind. simpl. apply IH. simpl. rewrite Hin1 in Hlt2. lia.
Qed.

Lemma game_loop_from_trace fuel p1 p2 score s n s' :
  game_loop_from format_n fuel depth p1 p2 score names_and_populations s
  = (Ok n, s') →
  ∃ evs, stdout s'
         = stdout s ++ evs ++ [EPrint ("Your score was " +:+ repr n +:+ ".")]
    ∧ n = score + correct_guesses evs
    ∧ ends_at_incorrect evs.
Proof.
  unfold game_loop_from.
  intros (m & s1 & Hloop & H)%bind_Ok_inv.
  apply bind_Ok_inv in H as ([] & s2 & [= <-] & [= <- <-]).
  apply game_loop_while_trace in Hloop as (evs & Hout & Hn & Hends).
  exists evs. split_and!; [| done | done].
  simpl. by rewrite Hout, <- app_assoc.
Qed.


End Rounds.

(** For the function as it is called, from no countries and score 0: the
    score returned is the number of "Correct!" verdicts printed. *)
Lemma game_loop_score format_n depth names_and_populations s n s' :
  game_loop format_n depth names_and_populations s = (Ok n, s') →
  ∃ evs, stdout s'
         = stdout s ++ evs ++ [EPrint ("Your score was " +:+ repr n +:+ ".")]
    ∧ n = correct_guesses evs
    ∧ ends_at_incorrect evs.
Proof.
  unfold game_loop. intros (evs & Hout & Hn & Hends)%game_loop_from_trace.
  exists evs. split_and!; [done | lia | done].
Qed.


(** Four right guesses, each followed by "y", then a wrong one. *)
Example game_loop_four_then_wrong :
  (game_loop repr 1 demo_catalog
     (demo_world ["1"; "y"; "1"; "Y"; "x"; "1"; "y"; "1"; "y"; "2"; "y"]
                 [0; 1; 0; 0]%nat)).1 = Ok 4.
Proof. vm_compute. reflexivity. Qed.

End GameLoop.

Module DataSource.

Section Adapter.

Variable json : Type.
Variable json_loads : string → option json.

Lemma make_country_request_run endpoint w r :
  network w endpoint = Some r →
  make_country_request json json_loads endpoint w
  = (if (status_code r =? 200)%Z
     then match json_loads (text r) with
          | Some document => Ok (Some document)
          | None => Raise JSONDecodeError
          end
     else Ok None,
     mkSystem (<[JSON_FILE := mkFile (text r) (clock w)]> (files w))
              (program_mtime w) (clock w) (network w)
              (log w ++ [HttpGet endpoint; FileWrite JSON_FILE (text r)])).
Proof.
  intros Hnet. unfold make_country_request, mbind, M_bind, requests_get.
  rewrite Hnet. simpl. rewrite <- app_assoc. simpl.
  destruct (status_code r =? 200)%Z; [| done].
  unfold parse_json. by destruct (json_loads (text r)).
Qed.

Lemma make_country_request_log endpoint w :
  ∃ rest, log (make_country_request json json_loads endpoint w).2
          = log w ++ HttpGet endpoint :: rest.
Proof.
  destruct (network w endpoint) as [r |] eqn:Hnet.
  - rewrite (make_country_request_run _ _ _ Hnet). simpl. eauto.
  - unfold make_country_request, mbind, M_bind, requests_get. rewrite Hnet.
    simpl. eauto.
Qed.

Lemma get_country_information_fresh endpoint w f :
  files w !! JSON_FILE = Some f →
  PrimFloat.ltb (mtime f) (PrimFloat.sub (program_mtime w) 86400%float) = false →
  get_country_information json json_loads endpoint w
  = (match json_loads (content f) with
     | Some document => Ok (Some document)
     | None => Raise JSONDecodeError
     end, record (FileRead JSON_FILE) w).
Proof.
  intros Hf Hlt.
  unfold get_country_information, mbind, M_bind, path_exists, getmtime,
    getmtime_program, read_file.
  rewrite Hf. rewrite bool_decide_eq_true_2 by eauto. simpl.
  rewrite Hf. simpl. rewrite Hlt, Hf.
  unfold parse_json. by destruct (json_loads (content f)).
Qed.

Lemma get_country_information_stale endpoint w :
  ¬ cache_not_older w →
  get_country_information json json_loads endpoint w
  = make_country_request json json_loads endpoint w.
Proof.
  intros Hstale.
  unfold get_country_information, mbind at 1 2, M_bind at 1 2, path_exists.
  destruct (files w !! JSON_FILE) as [f |] eqn:Hf.
  - rewrite bool_decide_eq_true_2 by eauto. simpl.
    unfold mbind, M_bind, getmtime, getmtime_program. rewrite Hf.
    destruct (PrimFloat.ltb (mtime f) _) eqn:Hlt; [done |].
    destruct Hstale. by exists f.
  - rewrite bool_decide_eq_false_2 by (by intros [x [=]]). done.
Qed.

(** C4, amended: the adapter reads and parses the cached file, with no HTTP
    request, exactly when the file exists and its modification time is not
    less than the script's modification time minus 86400 seconds (equality
    included); in every other case it is the live fetch, which starts with
    the HTTP request. *)
Theorem get_country_information_cache_iff endpoint w :
  (cache_not_older w ↔
     log (get_country_information json json_loads endpoint w).2
     = log w ++ [FileRead JSON_FILE])
  ∧ (cache_not_older w →
       ∃ f, files w !! JSON_FILE = Some f
         ∧ get_country_information json json_loads endpoint w
           = (match json_loads (content f) with
              | Some document => Ok (Some document)
              | None => Raise JSONDecodeError
              end, record (FileRead JSON_FILE) w))
  ∧ (¬ cache_not_older w →
       get_country_information json json_loads endpoint w
       = make_country_request json json_loads endpoint w
       ∧ ∃ rest, log (get_country_information json json_loads endpoint w).2
                 = log w ++ HttpGet endpoint :: rest).
Proof.
  assert (Hfresh : cache_not_older w →
    ∃ f, files w !! JSON_FILE = Some f
      ∧ get_country_information json json_loads endpoint w
        = (match json_loads (content f) with
           | Some document => Ok (Some document)
           | None => Raise JSONDecodeError
           end, record (FileRead JSON_FILE) w)).
  { intros (f & Hf & Hlt). exists f. split; [done |].
    by apply get_country_information_fresh. }
  assert (Hstale : ¬ cache_not_older w →
    get_country_information json json_loads endpoint w
    = make_country_request json json_loads endpoint w
    ∧ ∃ rest, log (get_country_information json json_loads endpoint w).2
              = log w ++ HttpGet endpoint :: rest).
  { intros H. rewrite (get_country_information_stale _ _ H).
    split; [done | apply make_country_request_log]. }
  split_and!; [| done | done].
  split.
  - intros (f & _ & ->)%Hfresh. done.
  - intros Hlog.
    assert (Hdec : cache_not_older w ∨ ¬ cache_not_older w).
    { unfold cache_not_older. destruct (files w !! JSON_FILE) as [f |].
      - destruct (PrimFloat.ltb (mtime f)
                    (PrimFloat.sub (program_mtime w) 86400%float)) eqn:Hlt.
        + right. intros (f' & [= <-] & Hlt'). congruence.
        + left. eauto.
      - right. by intros (f' & [=] & _). }
    destruct Hdec as [| Hn]; [done |].
    destruct (Hstale Hn) as (_ & rest & Hrest).
    rewrite Hrest in Hlog. by apply app_inv_head in Hlog.
Qed.

(** C5: a live fetch answered with a status other than 200 returns [None];
    it raises nothing, and the one HTTP request is followed only by the write
    of the cache file. *)
Theorem make_country_request_non_200 endpoint w r :
  network w endpoint = Some r →
  status_code r ≠ 200 →
  (make_country_request json json_loads endpoint w).1 = Ok None
  ∧ log (make_country_request json json_loads endpoint w).2
    = log w ++ [HttpGet endpoint; FileWrite JSON_FILE (text r)].
Proof.
  intros Hnet Hstatus. rewrite (make_country_request_run _ _ _ Hnet). simpl.
  apply Z.eqb_neq in Hstatus. by rewrite Hstatus.
Qed.

(** C6: a live fetch that gets a response leaves the cache file with the
    text of the response as its content, whatever the files were before and
    whatever the status code; no other file changes. *)
Theorem make_country_request_writes_cache endpoint w r :
  network w endpoint = Some r →
  files (make_country_request json json_loads endpoint w).2 !! JSON_FILE
  = Some (mkFile (text r) (clock w))
  ∧ ∀ path, path ≠ JSON_FILE →
      files (make_country_request json json_loads endpoint w).2 !! path
      = files w !! path.
Proof.
  intros Hnet. rewrite (make_country_request_run _ _ _ Hnet). simpl. split.
  - apply lookup_insert_eq.
  - intros path Hpath. by apply lookup_insert_ne.
Qed.

(** Through the adapter: a stale or missing cache and an answer other than
    200 give [None]. *)
Lemma get_country_information_non_200 endpoint w r :
  ¬ cache_not_older w →
  network w endpoint = Some r →
  status_code r ≠ 200 →
  (get_country_information json json_loads endpoint w).1 = Ok None.
Proof.
  intros Hstale Hnet Hstatus. rewrite (get_country_information_stale _ _ Hstale).
  rewrite (make_country_request_run _ _ _ Hnet). simpl.
  apply Z.eqb_neq in Hstatus. by rewrite Hstatus.
Qed.

End Adapter.

Lemma stale_system_not_fresh : ¬ cache_not_older stale_system.
Proof.
  intros (f & Hf & Hlt). unfold stale_system in Hf, Hlt. simpl in Hf, Hlt.
  rewrite lookup_singleton_eq in Hf. injection Hf as <-.
  vm_compute in Hlt. discriminate.
Qed.

Lemma get_country_information_cache_iff_witness :
  ¬ cache_not_older stale_system ∧
  get_country_information string Some "endpoint" stale_system
  = make_country_request string Some "endpoint" stale_system.
Proof.
  split; [exact stale_system_not_fresh |].
  apply (get_country_information_cache_iff string Some "endpoint" stale_system).
  exact stale_system_not_fresh.
Defined.

(** The cache is exactly 86400 seconds older than the script: it is not
    newer than the script's time minus a day, and still it is the cache that
    is read, with no request sent. *)
Lemma get_country_information_boundary :
  ¬ cache_newer boundary_system ∧
  get_country_information string Some "endpoint" boundary_system
  = (Ok (Some "[]"), record (FileRead JSON_FILE) boundary_system).
Proof.
  split.
  - intros (f & Hf & Hlt). unfold boundary_system in Hf, Hlt. simpl in Hf, Hlt.
    rewrite lookup_singleton_eq in Hf. injection Hf as <-.
    vm_compute in Hlt. discriminate.
  - apply (get_country_information_fresh string Some "endpoint" boundary_system
             (mkFile "[]" 1700000000%float)).
    + apply lookup_singleton_eq.
    + vm_compute. reflexivity.
Qed.

Lemma make_country_request_non_200_witness :
  network stale_system "endpoint" = Some (mkResponse 404 "Not Found") ∧
  (make_country_request string Some "endpoint" stale_system).1 = Ok None.
Proof.
  split; [reflexivity |].
  apply (make_country_request_non_200 string Some "endpoint" stale_system
           (mkResponse 404 "Not Found")); [reflexivity | discriminate].
Defined.

Lemma make_country_request_writes_cache_witness :
  network stale_system "endpoint" = Some (mkResponse 404 "Not Found") ∧
  files (make_country_request string Some "endpoint" stale_system).2 !! JSON_FILE
  = Some (mkFile "Not Found" 1700090000%float).
Proof.
  split; [reflexivity |].
  apply (make_country_request_writes_cache string Some "endpoint" stale_system
           (mkResponse 404 "Not Found")). reflexivity.
Defined.

End DataSource.

Module ScoreStore.

#[local] Instance score_desc_total : Total score_desc.
Proof. intros r1 r2. unfold score_desc. lia. Qed.

#[local] Instance score_desc_trans : Transitive score_desc.
Proof. intros r1 r2 r3. unfold score_desc. lia. Qed.

Lemma StronglySorted_lookup {A} (R : relation A) (l : list A) :
  StronglySorted R l →
  ∀ i j x y, (i < j)%nat → l !! i = Some x → l !! j = Some y → R x y.
Proof.
  induction 1 as [| z l _ IH Hall]; intros i j x y Hij Hi Hj; [done |].
  destruct j as [| j]; [lia |]. simpl in Hj.
  destruct i as [| i]; simpl in Hi.
  - injection Hi as <-. rewrite Forall_lookup in Hall. by eapply Hall.
  - eapply (IH i j); [lia | done | done].
Qed.

Lemma limit_lookup amount rows i r :
  limit amount rows !! i = Some r → rows !! i = Some r.
Proof.
  unfold limit. destruct (amount <? 0); [done |].
  by intros [H _]%lookup_take_Some.
Qed.

Lemma limit_length amount rows :
  0 ≤ amount → Z.of_nat (length (limit amount rows)) ≤ amount.
Proof.
  intros H. unfold limit. destruct (Z.ltb_spec amount 0); [lia |].
  rewrite length_take. lia.
Qed.

Lemma limit_negative amount rows : amount < 0 → limit amount rows = rows.
Proof. intros H. unfold limit. by destruct (Z.ltb_spec amount 0); [| lia]. Qed.

Lemma get_top_scores_fmap db amount :
  get_top_scores db amount
  = to_UserScore <$> limit amount (order_by_score_desc db).
Proof. reflexivity. Qed.

Lemma get_top_scores_non_increasing db amount :
  non_increasing (score <$> get_top_scores db amount).
Proof.
  intros i j a b Hij Hi Hj. rewrite get_top_scores_fmap in Hi, Hj.
  rewrite <- list_fmap_compose in Hi, Hj.
  apply list_lookup_fmap_Some_1 in Hi as (r1 & -> & Hi).
  apply list_lookup_fmap_Some_1 in Hj as (r2 & -> & Hj).
  apply limit_lookup in Hi, Hj.
  apply (StronglySorted_lookup score_desc (order_by_score_desc db)
           (StronglySorted_merge_sort _ _) i j r1 r2 Hij Hi Hj).
Qed.

(** C7, amended: for every amount that is not negative the query returns at
    most that many rows, and for every amount the scores of the rows it
    returns never increase from one row to the next. *)
Theorem get_top_scores_bounded_sorted db amount :
  (0 ≤ amount → Z.of_nat (length (get_top_scores db amount)) ≤ amount)
  ∧ non_increasing (score <$> get_top_scores db amount).
Proof.
  split; [| apply get_top_scores_non_increasing].
  intros H. rewrite get_top_scores_fmap, length_fmap. by apply limit_length.
Qed.

Lemma get_top_scores_bounded_sorted_witness :
  0 ≤ 3 ∧ Z.of_nat (length (get_top_scores demo_table 3)) ≤ 3.
Proof.
  split; [lia |].
  apply (get_top_scores_bounded_sorted demo_table 3). lia.
Defined.

(** With a negative amount one stored row is already more than the amount. *)
Lemma top_scores_exceed_negative_amount :
  ¬ (Z.of_nat (length (get_top_scores [mkRow 1 "AAA" 3] (-1))) ≤ -1).
Proof. vm_compute. by intros H. Qed.

(** [LIMIT] with a negative amount: the statement gives every row of the
    table. *)
Lemma get_top_scores_negative db amount :
  amount < 0 →
  get_top_scores db amount = to_UserScore <$> order_by_score_desc db
  ∧ get_top_scores db amount ≡ₚ to_UserScore <$> db
  ∧ length (get_top_scores db amount) = length db.
Proof.
  intros H. rewrite get_top_scores_fmap, limit_negative by done.
  assert (Hperm : to_UserScore <$> order_by_score_desc db ≡ₚ to_UserScore <$> db)
    by (apply fmap_Permutation, merge_sort_Permutation).
  split_and!; [done | done |].
  by rewrite Hperm, length_fmap.
Qed.

Lemma sqlite_int_spec n : sqlite_int n = true ↔ - 2 ^ 63 ≤ n < 2 ^ 63.
Proof. unfold sqlite_int. rewrite andb_true_iff, Z.leb_le, Z.ltb_lt. done. Qed.

Lemma execute_get_top_scores_in_range db amount :
  - 2 ^ 63 ≤ amount < 2 ^ 63 →
  execute_get_top_scores db amount = inr (get_top_scores db amount).
Proof.
  intros H%sqlite_int_spec. unfold execute_get_top_scores. by rewrite H.
Qed.

(** C10, amended: for every negative amount that SQLite can bind, that is
    from -2^63 on, the query returns every row of the table, so the bound by
    the amount holds only for amounts that are not negative. *)
Theorem execute_get_top_scores_negative db amount :
  - 2 ^ 63 ≤ amount →
  amount < 0 →
  ∃ result,
    execute_get_top_scores db amount = inr result
    ∧ result = to_UserScore <$> order_by_score_desc db
    ∧ result ≡ₚ to_UserScore <$> db
    ∧ length result = length db.
Proof.
  intros Hlow Hneg. exists (get_top_scores db amount).
  rewrite execute_get_top_scores_in_range by lia.
  split; [done |]. by apply get_top_scores_negative.
Qed.

Lemma execute_get_top_scores_negative_witness :
  - 2 ^ 63 ≤ -1 ∧ -1 < 0 ∧
  ∃ result, execute_get_top_scores demo_table (-1) = inr result
            ∧ length result = length demo_table.
Proof.
  split; [lia |]. split; [lia |].
  destruct (execute_get_top_scores_negative demo_table (-1)) as (result & H & _ & _ & Hlen);
    [lia | lia |].
  by exists result.
Defined.

(** A negative amount below -2^63: the call raises [OverflowError] and
    returns no row. *)
Lemma execute_get_top_scores_overflow :
  - 2 ^ 63 - 1 < 0 ∧
  execute_get_top_scores demo_table (- 2 ^ 63 - 1) = inl OverflowError.
Proof. split; [lia | reflexivity]. Qed.

End ScoreStore.

(** * Further properties of the score store *)

Module ScoreStoreOps.
Import ScoreStore.

#[local] Existing Instances ScoreStore.score_desc_total ScoreStore.score_desc_trans.

(** What a successful insert did. *)
Lemma save_score_inr_inv username score db db' :
  save_score username score db = inr db' →
  ∃ t id, db = ScoreTable t
    ∧ db' = ScoreTable (mkTable (table_rows t ++ [mkRow id username score]) id).
Proof.
  destruct db as [| | t]; simpl; [done | done |].
  destruct (negb (sqlite_int score)); [done |].
  destruct (2 ^ 63 - 1 <=? _); [done |].
  intros [= <-]. eauto.
Qed.

(** X20: when the two store calls of [main], creating the table and saving
    a score, go through, every row stored before is kept in place and one
    row with the given username and score is added at the end, on a database
    that had no table as on one that had it; the insert alone fails with
    [OperationalError] on a database without the table. *)
Theorem create_then_save_appends username score db db' :
  (save_score username score (create_database_file db) = inr db' →
   ∃ id, db' = ScoreTable (mkTable (stored_rows db ++ [mkRow id username score]) id))
  ∧ save_score username score NoTable = inl OperationalError.
Proof.
  split; [| done].
  intros (t & id & Hdb & ->)%save_score_inr_inv. exists id.
  destruct db as [| | t0]; simpl in Hdb; [| done |]; by injection Hdb as <-.
Qed.

Lemma create_then_save_appends_witness :
  save_score "EEE" 4 (create_database_file NoTable)
  = inr (ScoreTable (mkTable [mkRow 1 "EEE" 4] 1))
  ∧ ∃ id, ScoreTable (mkTable [mkRow 1 "EEE" 4] 1)
          = ScoreTable (mkTable (stored_rows NoTable ++ [mkRow id "EEE" 4]) id).
Proof.
  split; [reflexivity |].
  apply (create_then_save_appends "EEE" 4 NoTable). reflexivity.
Defined.

Lemma order_by_score_desc_sorted rows :
  StronglySorted score_desc (order_by_score_desc rows).
Proof. apply StronglySorted_merge_sort; apply _. Qed.

Lemma order_by_score_desc_perm rows : order_by_score_desc rows ≡ₚ rows.
Proof. apply merge_sort_Permutation. Qed.

Lemma limit_take_drop amount rows :
  ∃ rest, limit amount rows ++ rest = rows
    ∧ (amount < 0 → rest = [])
    ∧ (0 ≤ amount → rest = drop (Z.to_nat amount) rows).
Proof.
  unfold limit. destruct (Z.ltb_spec amount 0).
  - exists []. rewrite app_nil_r. split_and!; [done | done | lia].
  - exists (drop (Z.to_nat amount) rows). rewrite take_drop.
    split_and!; [done | lia | done].
Qed.

(** X22: with a negative amount that SQLite can bind, the query after a
    successful insert returns the rows it returned before together with the
    saved username and score, each as often as it is stored. *)
Theorem get_top_scores_after_save username score t t' amount :
  save_score username score (ScoreTable t) = inr (ScoreTable t') →
  - 2 ^ 63 ≤ amount →
  amount < 0 →
  ∃ before after,
    execute_get_top_scores (table_rows t) amount = inr before
    ∧ execute_get_top_scores (table_rows t') amount = inr after
    ∧ after ≡ₚ mkUserScore username score :: before.
Proof.
  intros (t0 & id & [= <-] & [= ->])%save_score_inr_inv Hlow Hneg. simpl.
  rewrite !execute_get_top_scores_in_range by lia.
  eexists _, _. split_and!; [done | done |].
  rewrite !get_top_scores_fmap, !limit_negative by done.
  rewrite !order_by_score_desc_perm, fmap_app. simpl.
  by rewrite <- Permutation_cons_append.
Qed.

Lemma get_top_scores_after_save_witness :
  save_score "EEE" 4 (ScoreTable (mkTable demo_table 4))
  = inr (ScoreTable (mkTable (demo_table ++ [mkRow 5 "EEE" 4]) 5))
  ∧ ∃ before after,
      execute_get_top_scores demo_table (-1) = inr before
      ∧ execute_get_top_scores (demo_table ++ [mkRow 5 "EEE" 4]) (-1) = inr after
      ∧ after ≡ₚ mkUserScore "EEE" 4 :: before.
Proof.
  split; [reflexivity |].
  apply (get_top_scores_after_save "EEE" 4 (mkTable demo_table 4)
           (mkTable (demo_table ++ [mkRow 5 "EEE" 4]) 5) (-1));
    [reflexivity | lia | lia].
Defined.

Lemma length_filter_all {A} (P : A → Prop) `{∀ x, Decision (P x)} (l : list A) :
  Forall P l → length (filter P l) = length l.
Proof.
  induction 1 as [| x l Hx _ IH]; [done |].
  rewrite filter_cons_True by done. simpl. by rewrite IH.
Qed.

(** X23: after a successful insert the saved score is on the leaderboard
    of size [amount], for an amount that SQLite can bind, whenever fewer than
    [amount] of the rows stored before it have a score at least as high. *)
Theorem saved_score_on_leaderboard username score t t' amount :
  save_score username score (ScoreTable t) = inr (ScoreTable t') →
  Z.of_nat (length (filter (λ r, score ≤ row_score r) (table_rows t))) < amount →
  amount < 2 ^ 63 →
  ∃ board,
    execute_get_top_scores (table_rows t') amount = inr board
    ∧ mkUserScore username score ∈ board.
Proof.
  intros (t0 & id & [= <-] & [= ->])%save_score_inr_inv Hfew Hhigh. simpl.
  rewrite execute_get_top_scores_in_range by lia.
  eexists. split; [done |].
  set (new := mkRow id username score).
  set (rows := table_rows t) in *.
  set (P := λ r : row, score ≤ row_score r) in *.
  pose proof (order_by_score_desc_sorted (rows ++ [new])) as Hsorted.
  pose proof (order_by_score_desc_perm (rows ++ [new])) as Hperm.
  assert (Hin : new ∈ order_by_score_desc (rows ++ [new])).
  { rewrite Hperm. apply elem_of_app. right. by left. }
  apply list_elem_of_split in Hin as (pre & post & Hsplit).
  rewrite Hsplit in Hsorted, Hperm.
  assert (Hpre : Forall P pre).
  { apply Forall_forall. intros x Hx.
    apply (StronglySorted_app_1_elem_of _ _ _ x new Hsorted Hx). by left. }
  assert (Hrows : pre ++ post ≡ₚ rows).
  { pose proof (Permutation_app_inv pre post rows [] new Hperm) as H.
    by rewrite app_nil_r in H. }
  assert (Hlen : (length pre ≤ length (filter P rows))%nat).
  { rewrite <- Hrows, filter_app, length_app, (length_filter_all P pre Hpre). lia. }
  change (mkUserScore username score) with (to_UserScore new).
  rewrite get_top_scores_fmap. apply list_elem_of_fmap_2.
  unfold limit. destruct (Z.ltb_spec amount 0); [lia |].
  apply elem_of_take. exists (length pre). split; [| lia].
  rewrite Hsplit. by apply list_lookup_middle.
Qed.

Lemma saved_score_on_leaderboard_witness :
  save_score "EEE" 8 (ScoreTable (mkTable demo_table 4))
  = inr (ScoreTable (mkTable (demo_table ++ [mkRow 5 "EEE" 8]) 5))
  ∧ Z.of_nat (length (filter (λ r, 8 ≤ row_score r) demo_table)) < 2
  ∧ ∃ board,
      execute_get_top_scores (demo_table ++ [mkRow 5 "EEE" 8]) 2 = inr board
      ∧ mkUserScore "EEE" 8 ∈ board.
Proof.
  split; [reflexivity |]. split; [vm_compute; reflexivity |].
  apply (saved_score_on_leaderboard "EEE" 8 (mkTable demo_table 4)
           (mkTable (demo_table ++ [mkRow 5 "EEE" 8]) 5) 2);
    [reflexivity | vm_compute; reflexivity | lia].
Defined.

(** X24: for an amount from 0 up to the largest integer SQLite can bind the
    query returns exactly that many rows, or all of them when the table holds
    fewer. *)
Theorem get_top_scores_length rows amount :
  0 ≤ amount →
  amount < 2 ^ 63 →
  ∃ board,
    execute_get_top_scores rows amount = inr board
    ∧ length board = (Z.to_nat amount `min` length rows)%nat.
Proof.
  intros Hlow Hhigh. rewrite execute_get_top_scores_in_range by lia.
  eexists. split; [done |].
  rewrite get_top_scores_fmap, length_fmap. unfold limit.
  destruct (Z.ltb_spec amount 0); [lia |].
  by rewrite length_take, order_by_score_desc_perm.
Qed.

Lemma get_top_scores_length_witness :
  0 ≤ 5 ∧ 5 < 2 ^ 63 ∧
  ∃ board, execute_get_top_scores demo_table 5 = inr board ∧ length board = 4%nat.
Proof.
  split; [lia |]. split; [lia |].
  apply (get_top_scores_length demo_table 5); lia.
Defined.

(** X25: the rows returned are the highest ones: the stored rows split into
    the rows returned and rows left out, and no row left out has a score
    above that of a row returned. *)
Theorem get_top_scores_highest rows amount :
  ∃ left_out,
    get_top_scores rows amount ++ (to_UserScore <$> left_out)
    ≡ₚ to_UserScore <$> rows
    ∧ ∀ a b, a ∈ get_top_scores rows amount → b ∈ left_out →
        row_score b ≤ score a.
Proof.
  destruct (limit_take_drop amount (order_by_score_desc rows))
    as (rest & Hsplit & _ & _).
  exists rest. rewrite get_top_scores_fmap. split.
  - by rewrite <- fmap_app, Hsplit, order_by_score_desc_perm.
  - intros a b (r & -> & Hr)%list_elem_of_fmap Hb.
    pose proof (order_by_score_desc_sorted rows) as Hsorted.
    rewrite <- Hsplit in Hsorted.
    apply (StronglySorted_app_1_elem_of _ _ _ r b Hsorted Hr Hb).
Qed.

End ScoreStoreOps.

(** * The username prompt *)

Module UserName.

Section Upper.

Variable len : string → nat.
Variable upper : string → string.
Hypothesis len_empty : len "" = 0%nat.

Lemma get_user_name_while_accept junk : ∀ fuel x line rest s,
  len x ≠ 3%nat →
  stdin s = junk ++ line :: rest →
  Forall (rejected len upper) junk →
  len (upper line) = 3%nat →
  (length junk < fuel)%nat →
  get_user_name_while len upper fuel x s
  = (Ok (upper line), after_prompts username_prompt (S (length junk)) rest s).
Proof.
  induction junk as [| l junk IH]; intros fuel x line rest s Hx Hin Hjunk Hline Hfuel.
  - destruct fuel as [| fuel]; [simpl in Hfuel; lia |]. simpl.
    rewrite bool_decide_eq_true_2 by done.
    unfold mbind, M_bind, input. simpl in Hin. rewrite Hin.
    destruct fuel; simpl; by rewrite bool_decide_eq_false_2 by (intros H; by apply H).
  - destruct fuel as [| fuel]; [simpl in Hfuel; lia |].
    apply Forall_cons in Hjunk as [Hl Hjunk].
    cbn [get_user_name_while]. rewrite bool_decide_eq_true_2 by done.
    unfold mbind, M_bind, input. simpl in Hin. rewrite Hin.
    erewrite IH; [| exact Hl | reflexivity | done | done | simpl in Hfuel; lia].
    unfold after_prompts. simpl. by rewrite <- app_assoc.
Qed.

Lemma get_user_name_while_eof lines : ∀ fuel x s,
  len x ≠ 3%nat →
  stdin s = lines →
  Forall (rejected len upper) lines →
  (length lines < fuel)%nat →
  get_user_name_while len upper fuel x s
  = (Raise EOFError, after_prompts username_prompt (S (length lines)) [] s).
Proof.
  induction lines as [| l lines IH]; intros fuel x s Hx Hin Hall Hfuel.
  - destruct fuel as [| fuel]; [simpl in Hfuel; lia |]. simpl.
    rewrite bool_decide_eq_true_2 by done.
    unfold mbind, M_bind, input, emit, after_prompts. by rewrite !Hin.
  - destruct fuel as [| fuel]; [simpl in Hfuel; lia |].
    apply Forall_cons in Hall as [Hl Hall].
    cbn [get_user_name_while]. rewrite bool_decide_eq_true_2 by done.
    unfold mbind, M_bind, input. rewrite Hin.
    erewrite IH; [| exact Hl | reflexivity | done | simpl in Hfuel; lia].
    unfold after_prompts. simpl. by rewrite <- app_assoc.
Qed.

Lemma get_user_name_while_Ok_inv fuel : ∀ x s u s',
  get_user_name_while len upper fuel x s = (Ok u, s') →
  len u = 3%nat
  ∧ ((len x = 3%nat ∧ x = u ∧ s' = s)
     ∨ (len x ≠ 3%nat
        ∧ ∃ junk line, stdin s = junk ++ line :: stdin s'
            ∧ u = upper line ∧ Forall (rejected len upper) junk)).
Proof.
  induction fuel as [| fuel IH]; intros x s u s'; simpl.
  - case_bool_decide as Hx; [done |]. intros [= <- <-].
    split; [done | by left].
  - case_bool_decide as Hx.
    + unfold mbind, M_bind, input.
      destruct (stdin s) as [| l rest] eqn:Hin; [done |].
      intros [Hlen Hcase]%IH. split; [done |]. right. split; [done |].
      destruct Hcase as [(_ & <- & ->) | (Hl & junk & line & Hrest & -> & Hjunk)].
      * exists [], l. by split_and!.
      * simpl in Hrest. exists (l :: junk), line. rewrite Hrest.
        split_and!; [done | done |]. by apply Forall_cons.
    + intros [= <- <-]. split; [done | by left].
Qed.

(** X9: whenever [get_user_name] returns, the name has exactly three
    characters and is the uppercase of the last line read, and every line
    read before it was refused for an uppercase of another length. *)
Theorem get_user_name_three_characters s u s' :
  get_user_name len upper s = (Ok u, s') →
  len u = 3%nat
  ∧ ∃ junk line, stdin s = junk ++ line :: stdin s'
      ∧ u = upper line ∧ Forall (rejected len upper) junk.
Proof.
  unfold get_user_name.
  intros [Hlen [(H0 & _) | (_ & H)]]%get_user_name_while_Ok_inv; [| done].
  rewrite len_empty in H0. lia.
Qed.

(** X10: lines whose uppercase does not have three characters are skipped,
    each after one more prompt, and the first line whose uppercase has three
    characters is returned in uppercase; the lines after it stay unread. *)
Theorem get_user_name_first_accepted junk line rest s :
  stdin s = junk ++ line :: rest →
  Forall (rejected len upper) junk →
  len (upper line) = 3%nat →
  get_user_name len upper s
  = (Ok (upper line), after_prompts username_prompt (S (length junk)) rest s).
Proof.
  intros Hin Hjunk Hline. unfold get_user_name.
  apply get_user_name_while_accept; [| done | done | done |].
  - rewrite len_empty. lia.
  - rewrite Hin, length_app. simpl. lia.
Qed.

(** X11: when no line of the input has an uppercase of three characters the
    function raises [EOFError], after one prompt per line and one more. *)
Theorem get_user_name_eof s :
  Forall (rejected len upper) (stdin s) →
  get_user_name len upper s
  = (Raise EOFError,
     after_prompts username_prompt (S (length (stdin s))) [] s).
Proof.
  intros Hall. unfold get_user_name.
  apply get_user_name_while_eof; [| done | done | lia].
  rewrite len_empty. lia.
Qed.

End Upper.

(** A name of three characters that takes nine bytes is accepted, after a
    single character of three bytes was refused. *)
Lemma get_user_name_three_characters_witness :
  get_user_name utf8_len ascii_upper (demo_world ["日"; "日本語"; "zz"] [])
  = (Ok "日本語", after_prompts username_prompt 2 ["zz"]
                    (demo_world ["日"; "日本語"; "zz"] []))
  ∧ utf8_len "日本語" = 3%nat.
Proof.
  split; [vm_compute; reflexivity |].
  eapply (get_user_name_three_characters utf8_len ascii_upper eq_refl
            (demo_world ["日"; "日本語"; "zz"] []) "日本語").
  vm_compute. reflexivity.
Defined.

Lemma get_user_name_first_accepted_witness :
  Forall (rejected utf8_len ascii_upper) ["ab"; "日"] ∧
  get_user_name utf8_len ascii_upper (demo_world ["ab"; "日"; "a1!"; "zz"] [])
  = (Ok "A1!", after_prompts username_prompt 3 ["zz"]
                 (demo_world ["ab"; "日"; "a1!"; "zz"] [])).
Proof.
  assert (H : Forall (rejected utf8_len ascii_upper) ["ab"; "日"])
    by (repeat constructor; unfold rejected; vm_compute; lia).
  split; [exact H |].
  apply (get_user_name_first_accepted utf8_len ascii_upper eq_refl ["ab"; "日"] "a1!"
           ["zz"] (demo_world ["ab"; "日"; "a1!"; "zz"] []));
    [reflexivity | exact H | reflexivity].
Defined.

Lemma get_user_name_eof_witness :
  Forall (rejected utf8_len ascii_upper) ["ab"; "abcd"; "日"] ∧
  (get_user_name utf8_len ascii_upper (demo_world ["ab"; "abcd"; "日"] [])).1
  = Raise EOFError.
Proof.
  assert (H : Forall (rejected utf8_len ascii_upper) ["ab"; "abcd"; "日"])
    by (repeat constructor; unfold rejected; vm_compute; lia).
  split; [exact H |].
  by rewrite (get_user_name_eof utf8_len ascii_upper eq_refl
                (demo_world ["ab"; "abcd"; "日"] []) H).
Defined.

End UserName.

(** * The catalog builder *)

Module CatalogBuilder.

Lemma append_countries_cons_ok country rest acc o :
  holds_fields country o →
  append_countries (country :: rest) acc = append_countries rest (acc ++ [o]).
Proof.
  intros (names & H1 & H2 & H3). simpl. rewrite H1, H2, H3. by destruct o.
Qed.

Lemma append_countries_cons_error country rest acc e :
  field_error country e → append_countries (country :: rest) acc = inl e.
Proof.
  intros [H1 | (names & H1 & [H2 | (name & H2 & H3)])]; simpl.
  - by rewrite H1.
  - by rewrite H1, H2.
  - by rewrite H1, H2, H3.
Qed.

(** Every record either has its fields or fails with some error. *)
Lemma holds_fields_or_error country :
  (∃ o, holds_fields country o) ∨ (∃ e, field_error country e).
Proof.
  destruct (getitem country "name") as [e | names] eqn:H1.
  { right. exists e. by left. }
  destruct (getitem names "common") as [e | name] eqn:H2.
  { right. exists e. right. exists names. split; [done | by left]. }
  destruct (getitem country "population") as [e | population] eqn:H3.
  { right. exists e. right. exists names. split; [done | right]. by exists name. }
  left. exists (Country_init name population), names. by split_and!.
Qed.

Lemma holds_fields_not_error country o e :
  holds_fields country o → field_error country e → False.
Proof.
  intros (names & H1 & H2 & H3)
    [E1 | (names' & E1 & [E2 | (name & E2 & E3)])]; congruence.
Qed.

Lemma append_countries_ok records : ∀ acc objs,
  Forall2 holds_fields records objs →
  append_countries records acc = inr (acc ++ objs).
Proof.
  induction records as [| country records IH]; intros acc objs H.
  - apply Forall2_nil_inv_l in H as ->. by rewrite app_nil_r.
  - apply Forall2_cons_inv_l in H as (o & objs' & Ho & Hrest & ->).
    rewrite (append_countries_cons_ok _ _ _ _ Ho), (IH _ _ Hrest).
    by rewrite <- app_assoc.
Qed.

Lemma append_countries_inr records : ∀ acc result,
  append_countries records acc = inr result →
  ∃ objs, result = acc ++ objs ∧ Forall2 holds_fields records objs.
Proof.
  induction records as [| country records IH]; intros acc result.
  - intros [= <-]. exists []. by rewrite app_nil_r.
  - destruct (holds_fields_or_error country) as [[o Ho] | [e He]].
    + rewrite (append_countries_cons_ok _ _ _ _ Ho).
      intros (objs & -> & Hrest)%IH. exists (o :: objs).
      rewrite <- app_assoc. split; [done | by constructor].
    + by rewrite (append_countries_cons_error _ _ _ _ He).
Qed.

(** X12: on a JSON array the builder returns a list exactly when every
    record has a [name] holding a [common] entry and has a [population]; the
    list then has one object per record, in the order of the records, built
    from these two values as they are. *)
Theorem builder_returns_iff records objs :
  get_country_names_and_populations_info (Some (PList records)) = inr objs
  ↔ Forall2 holds_fields records objs.
Proof.
  unfold get_country_names_and_populations_info. simpl. split.
  - by intros (objs' & -> & H)%append_countries_inr.
  - intros H. by rewrite (append_countries_ok _ _ _ H).
Qed.

(** X13: records sent with fields of the annotated types, possibly among
    other fields, come back as the catalog they describe: the same countries
    in the same order. *)
Theorem builder_typed_catalog records (cat : list Country) :
  Forall2 (λ country c, holds_fields country (to_object c)) records cat →
  get_country_names_and_populations_info (Some (PList records))
  = inr (to_object <$> cat)
  ∧ of_object <$> (to_object <$> cat) = Some <$> cat.
Proof.
  intros H. split.
  - unfold get_country_names_and_populations_info. simpl.
    apply (append_countries_ok records []). by apply Forall2_fmap_r.
  - rewrite <- list_fmap_compose. apply list_fmap_ext. by intros i [n p] _.
Qed.

Lemma api_record_fields c region : holds_fields (api_record c region) (to_object c).
Proof. exists (PDict [("common", PStr (name c)); ("official", PStr (name c))]). done. Qed.

Lemma builder_typed_catalog_witness :
  Forall2 (λ country c, holds_fields country (to_object c))
    [api_record usa "Americas"; api_record canada "Americas"] demo_catalog
  ∧ get_country_names_and_populations_info
      (Some (PList [api_record usa "Americas"; api_record canada "Americas"]))
    = inr (to_object <$> demo_catalog).
Proof.
  assert (H : Forall2 (λ country c, holds_fields country (to_object c))
                [api_record usa "Americas"; api_record canada "Americas"] demo_catalog)
    by (repeat constructor; apply api_record_fields).
  split; [exact H |].
  apply (builder_typed_catalog _ _ H).
Defined.

Lemma append_countries_app good : ∀ rest acc,
  Forall (λ country, ∃ o, holds_fields country o) good →
  ∃ objs, append_countries (good ++ rest) acc = append_countries rest (acc ++ objs).
Proof.
  induction good as [| country good IH]; intros rest acc Hgood.
  - exists []. by rewrite app_nil_r.
  - apply Forall_cons in Hgood as [[o Ho] Hgood].
    destruct (IH rest (acc ++ [o]) Hgood) as (objs & Hobjs).
    exists (o :: objs). simpl app.
    rewrite (append_countries_cons_ok _ _ _ _ Ho), Hobjs.
    by rewrite <- app_assoc.
Qed.

(** X14: the first record that lacks a field ends the whole call with its
    error, whatever the records before it gave and whatever follows: no
    partial list is returned and no record is skipped.  The error is that of
    the first failing lookup in the order [name], [common], [population]. *)
Theorem builder_first_error good bad rest e :
  Forall (λ country, ∃ o, holds_fields country o) good →
  field_error bad e →
  get_country_names_and_populations_info (Some (PList (good ++ bad :: rest)))
  = inl e.
Proof.
  intros Hgood Hbad. unfold get_country_names_and_populations_info. simpl.
  destruct (append_countries_app good (bad :: rest) [] Hgood) as (objs & ->).
  by apply append_countries_cons_error.
Qed.

Lemma builder_first_error_witness :
  field_error (PDict [("name", PDict [("common", PStr "Chad")])])
    (KeyError "population")
  ∧ get_country_names_and_populations_info
      (Some (PList [api_record usa "Americas";
                    PDict [("name", PDict [("common", PStr "Chad")])];
                    api_record canada "Americas"]))
    = inl (KeyError "population").
Proof.
  assert (H : field_error (PDict [("name", PDict [("common", PStr "Chad")])])
                (KeyError "population")).
  { right. exists (PDict [("common", PStr "Chad")]). split; [done | right].
    by exists (PStr "Chad"). }
  split; [exact H |].
  apply (builder_first_error [api_record usa "Americas"] _
           [api_record canada "Americas"] _); [| exact H].
  repeat constructor. exists (to_object usa). apply api_record_fields.
Defined.

(** X16: what is not a JSON array gives no catalog: [None], [null], a
    number, a boolean, and also an object or a string that is not empty,
    raise [TypeError]; only the empty object and the empty string pass, as the
    empty catalog. *)
Theorem builder_not_a_list country_information :
  (∀ records, country_information ≠ Some (PList records)) →
  get_country_names_and_populations_info country_information = inl TypeError
  ∨ (get_country_names_and_populations_info country_information = inr []
     ∧ (country_information = Some (PDict [])
        ∨ country_information = Some (PStr ""))).
Proof.
  intros Hnot. unfold get_country_names_and_populations_info.
  destruct country_information as [[| b | n | x | text | items | entries] |];
    simpl; try by left.
  - destruct text as [| c text]; [right; by split; [| right] | by left].
  - by destruct (Hnot items).
  - destruct entries as [| [k v] entries]; [right; by split; [| left] | by left].
Qed.

Lemma builder_not_a_list_witness :
  (∀ records,
     Some (PDict [("status", PInt 404); ("message", PStr "Not Found")])
     ≠ Some (PList records))
  ∧ get_country_names_and_populations_info
      (Some (PDict [("status", PInt 404); ("message", PStr "Not Found")]))
    = inl TypeError.
Proof.
  assert (H : ∀ records,
            Some (PDict [("status", PInt 404); ("message", PStr "Not Found")])
            ≠ Some (PList records)) by (intros records; discriminate).
  split; [exact H |].
  destruct (builder_not_a_list _ H) as [-> | [_ [E | E]]]; [reflexivity | ..];
    discriminate E.
Defined.

Section AfterFetch.

Variable json_loads : string → option pyval.

(** X15: after a fetch that was answered with a status other than 200, the
    first two statements of [main] end in [TypeError]: the fetch returns
    [None] and the builder cannot iterate it. *)
Theorem builder_after_failed_fetch endpoint w r :
  ¬ cache_not_older w →
  network w endpoint = Some r →
  status_code r ≠ 200 →
  ∃ info w', get_country_information pyval json_loads endpoint w = (Ok info, w')
    ∧ get_country_names_and_populations_info info = inl TypeError.
Proof.
  intros Hstale Hnet Hstatus.
  pose proof (DataSource.get_country_information_non_200 pyval json_loads
                endpoint w r Hstale Hnet Hstatus) as H.
  destruct (get_country_information pyval json_loads endpoint w) as [o w'].
  simpl in H. subst o. by exists None, w'.
Qed.

End AfterFetch.

Lemma builder_after_failed_fetch_witness :
  ¬ cache_not_older stale_system ∧
  ∃ info w',
    get_country_information pyval (λ _, None) "endpoint" stale_system = (Ok info, w')
    ∧ get_country_names_and_populations_info info = inl TypeError.
Proof.
  split; [exact DataSource.stale_system_not_fresh |].
  apply (builder_after_failed_fetch (λ _, None) "endpoint" stale_system
           (mkResponse 404 "Not Found"));
    [exact DataSource.stale_system_not_fresh | reflexivity | discriminate].
Defined.

End CatalogBuilder.

(** * The cache across two calls *)

Module DataSourceCache.

Section Adapter.

Variable json : Type.
Variable json_loads : string → option json.

Lemma get_country_information_after_fetch endpoint endpoint' w r :
  network w endpoint = Some r →
  clock_not_older w →
  get_country_information json json_loads endpoint'
    (make_country_request json json_loads endpoint w).2
  = (loaded json_loads (text r),
     record (FileRead JSON_FILE) (make_country_request json json_loads endpoint w).2).
Proof.
  intros Hnet Hclock.
  rewrite (DataSource.make_country_request_run json json_loads _ _ _ Hnet).
  apply (DataSource.get_country_information_fresh json json_loads endpoint' _
           (mkFile (text r) (clock w))).
  - simpl. apply lookup_insert_eq.
  - exact Hclock.
Qed.

(** X17: cache round trip.  After a live fetch answered with status 200,
    the next call of the adapter sends no request, reads the file the fetch
    wrote and returns what the fetch returned: the same document, or the same
    JSON error when the body is not JSON. *)
Theorem cache_round_trip endpoint endpoint' w r :
  network w endpoint = Some r →
  clock_not_older w →
  status_code r = 200 →
  (get_country_information json json_loads endpoint'
     (make_country_request json json_loads endpoint w).2).1
  = (make_country_request json json_loads endpoint w).1
  ∧ log (get_country_information json json_loads endpoint'
           (make_country_request json json_loads endpoint w).2).2
    = log w ++ [HttpGet endpoint; FileWrite JSON_FILE (text r); FileRead JSON_FILE].
Proof.
  intros Hnet Hclock Hstatus.
  rewrite (get_country_information_after_fetch _ _ _ _ Hnet Hclock).
  rewrite (DataSource.make_country_request_run json json_loads _ _ _ Hnet).
  simpl. rewrite Hstatus. simpl. split; [done |].
  by rewrite <- app_assoc.
Qed.

(** X18: the body of a failed fetch is cached too.  After a live fetch
    answered with a status other than 200, which returns [None], the next
    call does not fetch again: it sends no request, reads the file the
    failed fetch wrote and gives what parsing the error body gives. *)
Theorem failed_fetch_is_cached endpoint endpoint' w r :
  network w endpoint = Some r →
  clock_not_older w →
  status_code r ≠ 200 →
  (make_country_request json json_loads endpoint w).1 = Ok None
  ∧ get_country_information json json_loads endpoint'
      (make_country_request json json_loads endpoint w).2
    = (loaded json_loads (text r),
       record (FileRead JSON_FILE)
         (make_country_request json json_loads endpoint w).2)
  ∧ log (get_country_information json json_loads endpoint'
           (make_country_request json json_loads endpoint w).2).2
    = log w ++ [HttpGet endpoint; FileWrite JSON_FILE (text r); FileRead JSON_FILE].
Proof.
  intros Hnet Hclock Hstatus.
  rewrite (get_country_information_after_fetch _ _ _ _ Hnet Hclock).
  rewrite (DataSource.make_country_request_run json json_loads _ _ _ Hnet).
  simpl. apply Z.eqb_neq in Hstatus. rewrite Hstatus.
  split_and!; [done | done |]. by rewrite <- app_assoc.
Qed.

(** X19: when the connection fails, a stale cache is no fallback: the
    adapter raises the connection error after its one request, reads no file
    and leaves the files as they were. *)
Theorem connection_error_keeps_cache endpoint w :
  ¬ cache_not_older w →
  network w endpoint = None →
  get_country_information json json_loads endpoint w
  = (Raise ConnectionError, record (HttpGet endpoint) w)
  ∧ files (get_country_information json json_loads endpoint w).2 = files w.
Proof.
  intros Hstale Hnet.
  rewrite (DataSource.get_country_information_stale json json_loads _ _ Hstale).
  unfold make_country_request, mbind, M_bind, requests_get. by rewrite Hnet.
Qed.

End Adapter.

Lemma stale_system_clock : clock_not_older stale_system.
Proof. vm_compute. reflexivity. Qed.

Lemma cache_round_trip_witness :
  clock_not_older stale_system ∧
  (get_country_information string Some "endpoint"
     (make_country_request string Some "endpoint"
        (mkSystem (files stale_system) (program_mtime stale_system)
           (clock stale_system) (λ _, Some (mkResponse 200 "[]")) [])).2).1
  = Ok (Some "[]").
Proof.
  split; [exact stale_system_clock |].
  destruct (cache_round_trip string Some "endpoint" "endpoint"
              (mkSystem (files stale_system) (program_mtime stale_system)
                 (clock stale_system) (λ _, Some (mkResponse 200 "[]")) [])
              (mkResponse 200 "[]") eq_refl stale_system_clock eq_refl) as [-> _].
  reflexivity.
Defined.

Lemma failed_fetch_is_cached_witness :
  clock_not_older stale_system ∧
  (get_country_information string Some "endpoint"
     (make_country_request string Some "endpoint" stale_system).2).1
  = Ok (Some "Not Found").
Proof.
  split; [exact stale_system_clock |].
  destruct (failed_fetch_is_cached string Some "endpoint" "endpoint" stale_system
              (mkResponse 404 "Not Found") eq_refl stale_system_clock)
    as (_ & -> & _); [discriminate | reflexivity].
Defined.

Lemma connection_error_keeps_cache_witness :
  ¬ cache_not_older stale_system ∧
  (get_country_information string Some "endpoint"
     (mkSystem (files stale_system) (program_mtime stale_system)
        (clock stale_system) (λ _, None) [])).1
  = Raise ConnectionError.
Proof.
  split; [exact DataSource.stale_system_not_fresh |].
  destruct (connection_error_keeps_cache string Some "endpoint"
              (mkSystem (files stale_system) (program_mtime stale_system)
                 (clock stale_system) (λ _, None) [])) as [-> _];
    [exact DataSource.stale_system_not_fresh | reflexivity | reflexivity].
Defined.

End DataSourceCache.

(** * The input loops and the rounds of the game *)

Module GameRounds.
Import RoundSelector GameLoop.

Section Loop.

Variable prompt : string.
Variable post : string → string.
Variable accepted : list string.
Variable body : M world string.
Hypothesis body_read : ∀ s line rest,
  stdin s = line :: rest → body s = (Ok (post line), after_prompts prompt 1 rest s).
Hypothesis body_eof : ∀ s,
  stdin s = [] → body s = (Raise EOFError, after_prompts prompt 1 [] s).

Lemma while_not_in_fuel_accept junk : ∀ fuel x line rest s,
  x ∉ accepted →
  stdin s = junk ++ line :: rest →
  Forall (λ l, post l ∉ accepted) junk →
  post line ∈ accepted →
  (length junk < fuel)%nat →
  while_not_in_fuel fuel accepted body x s
  = (Ok (post line), after_prompts prompt (S (length junk)) rest s).
Proof.
  induction junk as [| l junk IH]; intros fuel x line rest s Hx Hin Hjunk Hline Hfuel;
    (destruct fuel as [| fuel]; [simpl in Hfuel; lia |]);
    cbn [while_not_in_fuel]; rewrite bool_decide_eq_false_2 by done;
    unfold mbind, M_bind; simpl in Hin; rewrite (body_read _ _ _ Hin).
  - destruct fuel; simpl; by rewrite bool_decide_eq_true_2.
  - apply Forall_cons in Hjunk as [Hl Hjunk].
    erewrite IH; [| exact Hl | reflexivity | done | done | simpl in Hfuel; lia].
    unfold after_prompts. simpl. by rewrite <- app_assoc.
Qed.

Lemma while_not_in_fuel_eof lines : ∀ fuel x s,
  x ∉ accepted →
  stdin s = lines →
  Forall (λ l, post l ∉ accepted) lines →
  (length lines < fuel)%nat →
  while_not_in_fuel fuel accepted body x s
  = (Raise EOFError, after_prompts prompt (S (length lines)) [] s).
Proof.
  induction lines as [| l lines IH]; intros fuel x s Hx Hin Hall Hfuel;
    (destruct fuel as [| fuel]; [simpl in Hfuel; lia |]);
    cbn [while_not_in_fuel]; rewrite bool_decide_eq_false_2 by done;
    unfold mbind, M_bind.
  - by rewrite (body_eof _ Hin).
  - rewrite (body_read _ _ _ Hin).
    apply Forall_cons in Hall as [Hl Hall].
    erewrite IH; [| exact Hl | reflexivity | done | simpl in Hfuel; lia].
    unfold after_prompts. simpl. by rewrite <- app_assoc.
Qed.

End Loop.

Lemma input_read prompt s line rest :
  stdin s = line :: rest → input prompt s = (Ok line, after_prompts prompt 1 rest s).
Proof. intros H. unfold input. by rewrite H. Qed.

Lemma input_eof prompt s :
  stdin s = [] → input prompt s = (Raise EOFError, after_prompts prompt 1 [] s).
Proof. intros H. unfold input, emit, after_prompts. by rewrite !H. Qed.

Lemma input_lower_read prompt s line rest :
  stdin s = line :: rest →
  input_lower prompt s = (Ok (lower line), after_prompts prompt 1 rest s).
Proof. intros H. unfold input_lower, mbind, M_bind. by rewrite (input_read _ _ _ _ H). Qed.

Lemma input_lower_eof prompt s :
  stdin s = [] → input_lower prompt s = (Raise EOFError, after_prompts prompt 1 [] s).
Proof. intros H. unfold input_lower, mbind, M_bind. by rewrite (input_eof _ _ H). Qed.

(** X4: the guess prompt is repeated for every line that is not exactly "1"
    or "2", without limit, and the first line that is one of the two is the
    guess; the lines after it stay unread. *)
Theorem guess_loop_first_valid prompt junk g rest s :
  stdin s = junk ++ g :: rest →
  Forall (λ l, l ∉ ["1"; "2"]) junk →
  g ∈ ["1"; "2"] →
  while_not_in ["1"; "2"] (input prompt) "" s
  = (Ok g, after_prompts prompt (S (length junk)) rest s).
Proof.
  intros Hin Hjunk Hg. unfold while_not_in.
  apply (while_not_in_fuel_accept prompt (λ l, l) ["1"; "2"] (input prompt)
           (input_read prompt) junk); [| done | done | done |].
  - intros H. repeat (apply elem_of_cons in H as [[=] | H]). by apply not_elem_of_nil in H.
  - rewrite Hin, length_app. simpl. lia.
Qed.

Lemma guess_loop_first_valid_witness :
  Forall (λ l, l ∉ ["1"; "2"]) ["x"] ∧
  while_not_in ["1"; "2"] (input "?") "" (demo_world ["x"; "2"; "y"] [])
  = (Ok "2", after_prompts "?" 2 ["y"] (demo_world ["x"; "2"; "y"] [])).
Proof.
  assert (H : Forall (λ l, l ∉ ["1"; "2"]) ["x"]).
  { repeat constructor. intros H.
    repeat (apply elem_of_cons in H as [[=] | H]). by apply not_elem_of_nil in H. }
  split; [exact H |].
  apply (guess_loop_first_valid "?" ["x"] "2" ["y"] (demo_world ["x"; "2"; "y"] []));
    [reflexivity | exact H | by right; left].
Defined.

Lemma lower_ascii_y c : lower_ascii c = "y"%char → c = "y"%char ∨ c = "Y"%char.
Proof.
  destruct c as [[] [] [] [] [] [] [] []]; vm_compute; intros H;
    first [discriminate H | by left | by right].
Qed.

Lemma lower_ascii_n c : lower_ascii c = "n"%char → c = "n"%char ∨ c = "N"%char.
Proof.
  destruct c as [[] [] [] [] [] [] [] []]; vm_compute; intros H;
    first [discriminate H | by left | by right].
Qed.

Lemma lower_single line c :
  lower line = String c EmptyString →
  ∃ c', line = String c' EmptyString ∧ lower_ascii c' = c.
Proof.
  destruct line as [| c' [| c'' rest]]; simpl; [done | | done].
  intros [= <-]. eauto.
Qed.

(** The lines the continue loop takes are "y", "Y", "n" and "N". *)
Lemma lower_yes_no line :
  lower line ∈ ["y"; "n"] ↔ line ∈ ["y"; "Y"; "n"; "N"].
Proof.
  split.
  - intros H. apply elem_of_cons in H as [H | H];
      [| apply list_elem_of_singleton in H].
    + apply lower_single in H as (c & -> & [-> | ->]%lower_ascii_y);
        [by left | by right; left].
    + apply lower_single in H as (c & -> & [-> | ->]%lower_ascii_n);
        [by do 2 right; left | by do 3 right; left].
  - intros H. repeat (apply elem_of_cons in H as [-> | H]);
      [by left | by left | by right; left | by right; left |].
    by apply not_elem_of_nil in H.
Qed.

(** X5: the continue prompt is repeated for every line other than "y",
    "Y", "n" and "N", without limit; the first of these four that is entered
    is taken, in lower case, and the lines after it stay unread. *)
Theorem continue_loop_first_valid junk line rest s :
  stdin s = junk ++ line :: rest →
  Forall (λ l, l ∉ ["y"; "Y"; "n"; "N"]) junk →
  line ∈ ["y"; "Y"; "n"; "N"] →
  while_not_in ["y"; "n"] (input_lower continue_prompt) "" s
  = (Ok (lower line), after_prompts continue_prompt (S (length junk)) rest s)
  ∧ lower line ∈ ["y"; "n"].
Proof.
  intros Hin Hjunk Hline. split; [| by apply lower_yes_no].
  unfold while_not_in.
  apply (while_not_in_fuel_accept continue_prompt lower ["y"; "n"]
           (input_lower continue_prompt) (input_lower_read continue_prompt) junk).
  - intros H. repeat (apply elem_of_cons in H as [[=] | H]). by apply not_elem_of_nil in H.
  - done.
  - eapply Forall_impl; [exact Hjunk |]. intros l Hl Hlow. by apply Hl, lower_yes_no.
  - by apply lower_yes_no.
  - rewrite Hin, length_app. simpl. lia.
Qed.

Lemma continue_loop_first_valid_witness :
  Forall (λ l, l ∉ ["y"; "Y"; "n"; "N"]) ["yes"; ""] ∧
  while_not_in ["y"; "n"] (input_lower continue_prompt) ""
    (demo_world ["yes"; ""; "N"; "1"] [])
  = (Ok "n", after_prompts continue_prompt 3 ["1"]
               (demo_world ["yes"; ""; "N"; "1"] [])).
Proof.
  assert (H : Forall (λ l, l ∉ ["y"; "Y"; "n"; "N"]) ["yes"; ""]).
  { repeat constructor; intros H;
      repeat (apply elem_of_cons in H as [[=] | H]); by apply not_elem_of_nil in H. }
  split; [exact H |].
  apply (continue_loop_first_valid ["yes"; ""] "N" ["1"]
           (demo_world ["yes"; ""; "N"; "1"] []));
    [reflexivity | exact H | by do 3 right; left].
Defined.

Section Rounds.

Variable format_n : Z → string.
Variable depth : nat.
Variable names_and_populations : list Country.

(** X6: after a right guess the score goes up by one and the player is
    asked whether to continue: on "n" the function returns the new score at
    once, on any other answer the loop has taken (that is "y") it prints the
    running score and plays the next round from the same two countries. *)
Theorem right_guess_round fuel p1 p2 score s c1 c2 s1 g s2 play_again s3 :
  set_countries depth p1 p2 names_and_populations s = (Ok (c1, c2), s1) →
  while_not_in ["1"; "2"] (input (guess_prompt c1 c2)) "" s1 = (Ok g, s2) →
  check_user_guess c1 c2 g = true →
  while_not_in ["y"; "n"] (input_lower continue_prompt) ""
    (emit [EPrint (Country_str format_n c1); EPrint (Country_str format_n c2);
           EPrint "Correct!"] s2)
  = (Ok play_again, s3) →
  (play_again = "n" →
     game_loop_from format_n (S fuel) depth p1 p2 score names_and_populations s
     = (Ok (score + 1),
        emit [EPrint ("Your score was " +:+ repr (score + 1) +:+ ".")] s3))
  ∧ (play_again ≠ "n" →
       game_loop_while format_n (S fuel) depth p1 p2 score names_and_populations s
       = game_loop_while format_n fuel depth (Some c1) (Some c2) (score + 1)
           names_and_populations
           (emit [EPrint ("Your current score is " +:+ repr (score + 1) +:+ ".")] s3)).
Proof.
  intros Hset Hguess Hcheck Hagain.
  assert (Hloop :
    game_loop_while format_n (S fuel) depth p1 p2 score names_and_populations s
    = (if (play_again =? "n")%string
       then mret (score + 1)
       else print ("Your current score is " +:+ repr (score + 1) +:+ ".");;
            game_loop_while format_n fuel depth (Some c1) (Some c2) (score + 1)
              names_and_populations) s3).
  { cbn [game_loop_while].
    rewrite (bind_Ok _ _ _ _ _ Hset). cbn beta iota.
    rewrite (bind_Ok _ _ _ _ _ Hguess).
    unfold mbind at 1 2, M_bind at 1 2, print at 1 2. rewrite Hcheck.
    unfold mbind at 1, M_bind at 1, print at 1. rewrite !emit_emit.
    by rewrite (bind_Ok _ _ _ _ _ Hagain). }
  split.
  - intros ->. unfold game_loop_from. rewrite (bind_Ok _ _ _ (score + 1) s3 Hloop).
    done.
  - intros Hne. rewrite Hloop. apply String.eqb_neq in Hne. rewrite Hne. done.
Qed.

Lemma bind_Raise {St A B} (m : M St A) (f : A → M St B) s e s' :
  m s = (Raise e, s') → (m ≫= f) s = (Raise e, s').
Proof. unfold mbind, M_bind. by intros ->. Qed.

Lemma not_in_guesses : "" ∉ ["1"; "2"].
Proof.
  intros H. repeat (apply elem_of_cons in H as [[=] | H]). by apply not_elem_of_nil in H.
Qed.

Lemma not_in_answers : "" ∉ ["y"; "n"].
Proof.
  intros H. repeat (apply elem_of_cons in H as [[=] | H]). by apply not_elem_of_nil in H.
Qed.

(** Lines read by the loop against the score it adds: two lines or more
    for each right guess, and one line at least in all. *)
Lemma game_loop_while_lines fuel : ∀ p1 p2 score s n s',
  game_loop_while format_n fuel depth p1 p2 score names_and_populations s
  = (Ok n, s') →
  score ≤ n
  ∧ Z.of_nat (length (stdin s')) + 2 * (n - score) ≤ Z.of_nat (length (stdin s))
  ∧ (length (stdin s') < length (stdin s))%nat.
Proof.
  induction fuel as [| fuel IH]; intros p1 p2 score s n s'; [done |].
  simpl. intros ([c1 c2] & s1 & Hset & H)%bind_Ok_inv. simpl in H.
  apply set_countries_console in Hset as [Hin1 _].
  apply bind_Ok_inv in H as (g & s2 & Hguess & H).
  apply (while_not_in_stdin _ _ (input_trace _)) in Hguess as [_ Hin2].
  specialize (Hin2 not_in_guesses).
  apply bind_Ok_inv in H as ([] & s3 & [= <-] & H).
  apply bind_Ok_inv in H as ([] & s4 & [= <-] & H).
  destruct (check_user_guess c1 c2 g).
  - apply bind_Ok_inv in H as ([] & s5 & [= <-] & H).
    apply bind_Ok_inv in H as (pa & s6 & Hpa & H).
    apply (while_not_in_stdin _ _ (input_lower_trace _)) in Hpa as [_ Hin6].
    specialize (Hin6 not_in_answers). simpl in Hin6.
    destruct (pa =? "n")%string.
    + injection H as <- <-. rewrite Hin1 in Hin2. lia.
    + apply bind_Ok_inv in H as ([] & s7 & [= <-] & H).
      apply IH in H as (Hn & Hlines & Hlt). simpl in Hlines, Hlt.
      rewrite Hin1 in Hin2. lia.
  - apply bind_Ok_inv in H as ([] & s5 & [= <-] & H).
    injection H as <- <-. simpl. rewrite Hin1 in Hin2. lia.
Qed.

(** X7: the score [game_loop] returns is never negative, and every point
    of it took at least two lines of input, the guess and an answer to the
    continue prompt; a game that returns has read at least one line. *)
Theorem game_loop_score_bounded s n s' :
  game_loop format_n depth names_and_populations s = (Ok n, s') →
  0 ≤ n
  ∧ Z.of_nat (length (stdin s')) + 2 * n ≤ Z.of_nat (length (stdin s))
  ∧ (length (stdin s') < length (stdin s))%nat.
Proof.
  unfold game_loop, game_loop_from.
  intros (m & s1 & Hloop & H)%bind_Ok_inv.
  apply bind_Ok_inv in H as ([] & s2 & [= <-] & [= <- <-]).
  apply game_loop_while_lines in Hloop as (Hn & Hlines & Hlt). simpl. lia.
Qed.

(** X8: at the end of input before the first guess the game raises
    [EOFError]: the selector has drawn the pair, the prompt is shown once,
    and neither a country nor a score is printed. *)
Theorem game_loop_eof s c1 c2 s1 :
  stdin s = [] →
  set_countries depth None None names_and_populations s = (Ok (c1, c2), s1) →
  game_loop format_n depth names_and_populations s
  = (Raise EOFError, emit [EInput (guess_prompt c1 c2)] s1).
Proof.
  intros Hin Hset.
  pose proof (set_countries_console _ _ _ _ _ _ _ Hset) as [Hin1 _].
  rewrite Hin in Hin1.
  assert (Hguess :
    while_not_in ["1"; "2"] (input (guess_prompt c1 c2)) "" s1
    = (Raise EOFError, emit [EInput (guess_prompt c1 c2)] s1)).
  { unfold while_not_in. rewrite Hin1. cbn [length while_not_in_fuel].
    rewrite bool_decide_eq_false_2 by apply not_in_guesses.
    unfold mbind, M_bind, input. by rewrite Hin1. }
  unfold game_loop, game_loop_from. rewrite Hin. cbn [length game_loop_while].
  rewrite (bind_Raise _ _ s EOFError (emit [EInput (guess_prompt c1 c2)] s1)); [done |].
  rewrite (bind_Ok _ _ _ _ _ Hset). cbn beta iota.
  by rewrite (bind_Raise _ _ _ _ _ Hguess).
Qed.

(** X3: on an empty catalog the selector raises [IndexError] for every
    previous pair, and the game raises it before anything is shown or read. *)
Theorem empty_catalog_index_error fuel p1 p2 s :
  (set_countries (S fuel) p1 p2 [] s).1 = Raise IndexError
  ∧ game_loop format_n (S depth) [] s = (Raise IndexError, s).
Proof.
  split; [| done].
  destruct p1, p2; try done.
  cbn [set_countries]. unfold mbind, M_bind, mret, M_ret. simpl.
  by destruct (_ =? 0).
Qed.

End Rounds.

(** X2: the selector returns only on a catalog that holds two countries
    unequal by value.  On any other catalog, a single country or several
    copies of one, it returns for no previous pair taken from the catalog,
    on no draws and with no depth of recursion, and the game returns no
    score. *)
Theorem no_pair_no_game (cat : list Country) :
  ¬ has_two_unequal cat →
  (∀ fuel p1 p2 s r s', known cat p1 → known cat p2 →
     set_countries fuel p1 p2 cat s ≠ (Ok r, s'))
  ∧ (∀ format_n depth s n s', game_loop format_n depth cat s ≠ (Ok n, s')).
Proof.
  intros Hnone.
  assert (Hsel : ∀ fuel p1 p2 s r s', known cat p1 → known cat p2 →
            set_countries fuel p1 p2 cat s ≠ (Ok r, s')).
  { intros fuel p1 p2 s [c1 c2] s' K1 K2 H. apply Hnone. exists c1, c2.
    pose proof (set_countries_unequal _ _ _ _ _ _ _ _ H).
    apply set_countries_elem_of in H as [H1 H2]; done. }
  split; [exact Hsel |].
  intros format_n depth s n s'. unfold game_loop, game_loop_from.
  intros (m & s1 & Hloop & _)%bind_Ok_inv.
  cbn [game_loop_while] in Hloop.
  apply bind_Ok_inv in Hloop as (r & s2 & Hset & _).
  by apply Hsel in Hset.
Qed.

Lemma single_country_no_pair : ¬ has_two_unequal [usa].
Proof.
  intros (a & b & ->%list_elem_of_singleton & ->%list_elem_of_singleton & H). done.
Qed.

Lemma no_pair_no_game_witness :
  ¬ has_two_unequal [usa] ∧
  ∀ format_n depth s n s', game_loop format_n depth [usa] s ≠ (Ok n, s').
Proof.
  split; [exact single_country_no_pair |].
  apply (no_pair_no_game [usa] single_country_no_pair).
Defined.

Lemma game_loop_eof_witness :
  stdin (demo_world [] [0; 1; 0; 0]%nat) = [] ∧
  (game_loop repr 1 demo_catalog (demo_world [] [0; 1; 0; 0]%nat)).1 = Raise EOFError.
Proof.
  split; [reflexivity |].
  erewrite (game_loop_eof repr 1 demo_catalog (demo_world [] [0; 1; 0; 0]%nat));
    [reflexivity | reflexivity | vm_compute; reflexivity].
Defined.

Lemma game_loop_score_bounded_witness :
  (game_loop repr 1 demo_catalog
     (demo_world ["1"; "y"; "1"; "n"; "zz"] [0; 1; 0; 0]%nat)).1 = Ok 2
  ∧ 0 ≤ 2.
Proof.
  split; [vm_compute; reflexivity |].
  eapply (game_loop_score_bounded repr 1 demo_catalog
            (demo_world ["1"; "y"; "1"; "n"; "zz"] [0; 1; 0; 0]%nat) 2).
  vm_compute. reflexivity.
Defined.

Lemma right_guess_round_witness :
  (game_loop_from repr 1 1 (Some usa) (Some canada) 4 demo_catalog
     (demo_world ["1"; "N"; "zz"] [0; 0]%nat)).1 = Ok 5.
Proof.
  edestruct (right_guess_round repr 1 demo_catalog 0 (Some usa) (Some canada) 4
               (demo_world ["1"; "N"; "zz"] [0; 0]%nat)) as [H _];
    [vm_compute; reflexivity | vm_compute; reflexivity | vm_compute; reflexivity
    | vm_compute; reflexivity |].
  by rewrite H.
Defined.

End GameRounds.

(** * Further properties of the guess evaluator *)

Module GuessFacts.
Import GuessEvaluator.

(** X1: for every pair of countries one of the guesses "1" and "2" is
    judged right; both are right exactly when the populations are equal; and
    exchanging the two countries exchanges the two guesses. *)
Theorem some_guess_is_right (c1 c2 : Country) :
  (check_user_guess c1 c2 "1" = true ∨ check_user_guess c1 c2 "2" = true)
  ∧ (check_user_guess c1 c2 "1" = true ∧ check_user_guess c1 c2 "2" = true
     ↔ population c1 = population c2)
  ∧ check_user_guess c1 c2 "1" = check_user_guess c2 c1 "2".
Proof.
  rewrite !check_user_guess_1, !(check_user_guess_not_1 _ _ "2") by discriminate.
  rewrite !Z.geb_le. split_and!; [lia | lia | done].
Qed.

End GuessFacts.
